(** * giagrad: the Tensor class and its backward pass

    A shallow embedding of [giagrad/tensor.py]: the [Context] base class, the
    [Tensor] class with its constructors, the generic combinator [comm], the
    in-place operators and [backward] with its nested [build_topo].

    Python objects live in a heap: every [Tensor] has an identity (its index
    in [tensors]) and every numpy array has one (its index in [arrays]), so
    that in-place mutation, rebinding of attributes and aliasing are all
    visible.  The numerical kernels of numpy and the concrete operators of
    [mathops], [reductionops] and [mlops] live in other modules: scalars
    are kept abstract behind [Scalar] and the [forward] and [backward] of
    the operators are parameters of the development. *)

From stdpp Require Import base option list gmap strings.
From Stdlib Require Import ZArith Lia.

Set Default Proof Using "Type".

(** ** Outcomes of running Python code *)

Inductive exn : Type :=
  | AttributeError
  | TypeError
  | ValueError
  | ArithmeticError
  | NotImplementedError.

(** [Ok] is a normal return and [Raise] a Python exception that reaches the
    caller.  The last two are artefacts of the model: [Stuck] is a reference
    that designates no object of the heap (impossible in Python) and
    [OutOfFuel] is a recursion deeper than the fuel that was given. *)
Inductive result (A : Type) : Type :=
  | Ok (a : A)
  | Raise (e : exn)
  | Stuck
  | OutOfFuel.
Arguments Ok {A} a.
Arguments Raise {A} e.
Arguments Stuck {A}.
Arguments OutOfFuel {A}.

#[global] Instance result_ret : MRet result := λ A a, Ok a.
#[global] Instance result_bind : MBind result := λ A B k m,
  match m with
  | Ok a => k a
  | Raise e => Raise e
  | Stuck => Stuck
  | OutOfFuel => OutOfFuel
  end.

(** An [option] read as a result: [None] becomes the given failure. *)
Definition orelse {A : Type} (o : option A) (r : result A) : result A :=
  match o with Some a => Ok a | None => r end.

(** ** Scalars and arithmetic kernels *)

(** The augmented assignments of the class. *)
Inductive binop : Type := Add | Sub | Mul | Pow | Div.

Inductive dtype : Type := Float32 | Float64.

#[global] Instance dtype_eq_dec : EqDecision dtype.
Proof. solve_decision. Defined.

(** What numpy sees of an operand: a Python float, a numpy scalar (an
    immutable object such as [np.float32(3)]), or an array, 0-dimensional
    or not. *)
Inductive operand_kind : Type := PyNumber | NpScalar | Array0 | ArrayN.

(** What the model needs of floating-point numbers and of numpy.
    [round32] rounds to single precision; [np_arith] is numpy's element
    kernel (total: it yields inf or nan where Python would raise);
    [py_arith] is the arithmetic of Python floats, [None] when it raises
    (division by zero, overflow).  [result_type] is the dtype in which
    numpy computes a binary operation on two operands of the given kinds
    and dtypes (for a Python float the dtype given is [Float64]): numpy 1
    decides it by value-based casting and numpy 2 by the rules of NEP 50,
    and they differ where a scalar meets an array. *)
Class Scalar (F : Type) : Type := {
  of_Z : Z → F;
  round32 : F → F;
  np_arith : binop → F → F → F;
  py_arith : binop → F → F → option F;
  result_type : operand_kind → dtype → operand_kind → dtype → dtype
}.

(** Product of the dimensions: the number of elements of a shape. *)
Definition numel (s : list nat) : nat := foldr Nat.mul 1 s.

Section Numpy.
Context {F : Type} `{Scalar F}.

Definition fzero : F := of_Z 0.
Definition fone : F := of_Z 1.

(** A numpy array: its shape, its dtype and its elements in row-major
    order. *)
Record ndarray : Type := NDArray {
  shape : list nat;
  dt : dtype;
  elems : list F
}.

Definition cast (d : dtype) (v : F) : F :=
  match d with Float32 => round32 v | Float64 => v end.

Definition promote (d1 d2 : dtype) : dtype :=
  match d1, d2 with Float32, Float32 => Float32 | _, _ => Float64 end.

(** A Python float seen by numpy: a 0-dimensional array of float64. *)
Definition scalar_array (v : F) : ndarray := NDArray [] Float64 [v].

Definition array_kind (a : ndarray) : operand_kind :=
  if decide (shape a = []) then Array0 else ArrayN.

(** [np.array(a, dtype=np.float32)]: a fresh single-precision copy. *)
Definition astype_float32 (a : ndarray) : ndarray :=
  NDArray (shape a) Float32 (round32 <$> elems a).

(** [np.zeros(shape, dtype=d)] and [np.ones(shape, dtype=d)]. *)
Definition np_zeros (s : list nat) (d : dtype) : ndarray :=
  NDArray s d (replicate (numel s) fzero).
Definition np_ones (s : list nat) (d : dtype) : ndarray :=
  NDArray s d (replicate (numel s) fone).

(** [np.zeros_like(a)]: the shape and dtype of [a]. *)
Definition np_zeros_like (a : ndarray) : ndarray := np_zeros (shape a) (dt a).

(** [np.eye(n, dtype=np.float32)]. *)
Definition np_eye (n : nat) : ndarray :=
  NDArray [n; n] Float32
    (i ← seq 0 n; (λ j, if decide (i = j) then fone else fzero) <$> seq 0 n).

(** [np.arange(start, stop, dtype=np.float32)] for integer bounds. *)
Definition np_arange (start stop : Z) : ndarray :=
  let n := Z.to_nat (stop - start) in
  NDArray [n] Float32 ((λ i, round32 (of_Z (start + Z.of_nat i))) <$> seq 0 n).

(** *** Broadcasting *)

Fixpoint chunks (n k : nat) (l : list F) : list (list F) :=
  match n with
  | 0 => []
  | S n' => take k l :: chunks n' k (drop k l)
  end.

(** Elements of an array of shape [src] laid out in shape [tgt] of the same
    rank: a dimension is kept when the two agree and repeated when the
    source has length 1. *)
Fixpoint broadcast_elems (src tgt : list nat) (l : list F) : option (list F) :=
  match src, tgt with
  | [], [] => Some l
  | d :: src', e :: tgt' =>
      if decide (d = e) then
        (@concat F) <$> mapM (broadcast_elems src' tgt') (chunks d (numel src') l)
      else if decide (d = 1) then
        (λ c, concat (replicate e c)) <$> broadcast_elems src' tgt' l
      else None
  | _, _ => None
  end.

(** [np.broadcast_to(a, tgt)]: shapes are aligned on the right. *)
Definition broadcast_to (tgt : list nat) (a : ndarray) : option (list F) :=
  if decide (length (shape a) ≤ length tgt) then
    broadcast_elems
      (replicate (length tgt - length (shape a)) 1 ++ shape a) tgt (elems a)
  else None.

Fixpoint broadcast_rev (s1 s2 : list nat) : option (list nat) :=
  match s1, s2 with
  | [], s | s, [] => Some s
  | d :: s1', e :: s2' =>
      if decide (d = e) then (d ::.) <$> broadcast_rev s1' s2'
      else if decide (d = 1) then (e ::.) <$> broadcast_rev s1' s2'
      else if decide (e = 1) then (d ::.) <$> broadcast_rev s1' s2'
      else None
  end.

(** [np.broadcast_shapes(s1, s2)]. *)
Definition broadcast_shapes (s1 s2 : list nat) : option (list nat) :=
  (@rev nat) <$> broadcast_rev (rev s1) (rev s2).

(** *** Element-wise arithmetic *)

(** One step of the loop of a binary ufunc that computes in the dtype
    [L]: both inputs are converted to [L] and the result is in [L]. *)
Definition np_loop (op : binop) (L : dtype) (x y : F) : F :=
  cast L (np_arith op (cast L x) (cast L y)).

(** [a op= y] on an array [a], computed in the dtype [L]: [y] is broadcast
    to the shape of [a], the result is cast to the dtype of [a] and written
    into [a].  [None] is numpy's ValueError for operands that cannot be
    broadcast. *)
Definition np_inplace (op : binop) (L : dtype) (a y : ndarray) :
    option ndarray :=
  ys ← broadcast_to (shape a) y;
  Some (NDArray (shape a) (dt a)
          (cast (dt a) <$> zip_with (np_loop op L) (elems a) ys)).

(** [v op y] for a scalar [v] (a Python float or a numpy scalar) and what
    numpy reads in [y], computed in the dtype [L]: the result has the shape
    of [y] and the dtype [L]. *)
Definition np_scalar_op (op : binop) (L : dtype) (v : F) (y : ndarray) :
    ndarray :=
  NDArray (shape y) L ((λ e, np_loop op L v e) <$> elems y).

(** *** Matrix product *)

Definition dot (k : nat) (row col : nat → F) : F :=
  foldl (λ acc l, np_arith Add acc (np_arith Mul (row l) (col l)))
        fzero (seq 0 k).

(** The product of an [n]x[k] matrix by a [k]x[m] matrix. *)
Definition mat_mul (n k m : nat) (A B : list F) : list F :=
  i ← seq 0 n;
  (λ j, dot k (λ l, default fzero (A !! (i * k + l)))
              (λ l, default fzero (B !! (l * m + j)))) <$> seq 0 m.

(** [a @ b]: 1-dimensional operands are promoted to matrices, leading
    dimensions are broadcast against each other.  [None] is numpy's
    ValueError (a 0-dimensional operand, or mismatching dimensions). *)
Definition np_matmul (a b : ndarray) : option ndarray :=
  let ra := length (shape a) in
  let rb := length (shape b) in
  if decide (ra = 0 ∨ rb = 0) then None else
  let sa := if decide (ra = 1) then 1 :: shape a else shape a in
  let sb := if decide (rb = 1) then shape b ++ [1] else shape b in
  let ba := take (length sa - 2) sa in
  let bb := take (length sb - 2) sb in
  match drop (length sa - 2) sa, drop (length sb - 2) sb with
  | [n; k], [k'; m] =>
      if decide (k = k') then
        batch ← broadcast_shapes ba bb;
        ea ← broadcast_to (batch ++ [n; k]) (NDArray sa (dt a) (elems a));
        eb ← broadcast_to (batch ++ [k; m]) (NDArray sb (dt b) (elems b));
        let d := promote (dt a) (dt b) in
        Some (NDArray
                (batch ++ (if decide (ra = 1) then [] else [n])
                       ++ (if decide (rb = 1) then [] else [m]))
                d
                (cast d <$> (@concat F) (zip_with (mat_mul n k m)
                                      (chunks (numel batch) (n * k) ea)
                                      (chunks (numel batch) (k * m) eb))))
      else None
  | _, _ => None
  end.
End Numpy.

Arguments ndarray F : clear implicits.

(** ** The heap of Python objects *)

(** Identities of Tensor objects and of numpy arrays. *)
Abbreviation ref := nat (only parsing).
Abbreviation loc := nat (only parsing).

Section Model.
Context {F : Type} `{Scalar F} {Op Kwargs : Type}.

(** A value that is not a Tensor: a Python float, a numpy array (held
    by reference) or a numpy scalar, the immutable object that numpy
    returns for a 0-dimensional result.  Nested lists are not modelled;
    numpy reads them as the arrays they spell. *)
Inductive raw : Type :=
  | RNum (v : F)
  | RArr (l : loc)
  | RScal (d : dtype) (v : F).

(** An operand, or a value saved by an operator: [isinstance(t, Tensor)]
    holds of [VTensor] only. *)
Inductive value : Type :=
  | VTensor (r : ref)
  | VRaw (o : raw).

(** class Context: [parents] is what [__init__] stores; [operator] stands
    for the concrete subclass of the instance and whatever else it keeps. *)
Record Context : Type := MkContext {
  operator : Op;
  parents : list value
}.

(** The slot [_ctx] of a Tensor: [__slots__] makes it a descriptor, so
    after [del tensor._ctx] reading it raises AttributeError. *)
Inductive slot : Type :=
  | Deleted
  | Bound (c : option Context).

(** class Tensor, [__slots__ = ["data", "grad", "_ctx", "requires_grad",
    "name"]]. *)
Record Tensor : Type := MkTensor {
  data : raw;
  grad : loc;
  _ctx : slot;
  requires_grad : bool;
  name : string
}.

Record heap : Type := MkHeap {
  tensors : list Tensor;
  arrays : list (ndarray F)
}.

Definition get_tensor (h : heap) (r : ref) : result Tensor :=
  orelse (tensors h !! r) Stuck.
Definition get_array (h : heap) (l : loc) : result (ndarray F) :=
  orelse (arrays h !! l) Stuck.

Definition set_tensor (r : ref) (t : Tensor) (h : heap) : heap :=
  MkHeap (<[r := t]> (tensors h)) (arrays h).
Definition set_array (l : loc) (a : ndarray F) (h : heap) : heap :=
  MkHeap (tensors h) (<[l := a]> (arrays h)).

(** Allocation: a new object gets the next identity. *)
Definition new_array (a : ndarray F) (h : heap) : loc * heap :=
  (length (arrays h), MkHeap (tensors h) (arrays h ++ [a])).
Definition new_tensor (t : Tensor) (h : heap) : ref * heap :=
  (length (tensors h), MkHeap (tensors h ++ [t]) (arrays h)).

Definition with_data (d : raw) (t : Tensor) : Tensor :=
  MkTensor d (grad t) (_ctx t) (requires_grad t) (name t).
Definition with_grad (g : loc) (t : Tensor) : Tensor :=
  MkTensor (data t) g (_ctx t) (requires_grad t) (name t).
Definition with_ctx (c : slot) (t : Tensor) : Tensor :=
  MkTensor (data t) (grad t) c (requires_grad t) (name t).

Definition with_requires_grad (b : bool) (t : Tensor) : Tensor :=
  MkTensor (data t) (grad t) (_ctx t) b (name t).

(** The array numpy makes of a raw value. *)
Definition as_array (h : heap) (o : raw) : result (ndarray F) :=
  match o with
  | RNum v => Ok (scalar_array v)
  | RArr l => get_array h l
  | RScal d v => Ok (NDArray [] d [v])
  end.

(** The kind of the operand [o], which numpy reads as the array [a]. *)
Definition kind_of (o : raw) (a : ndarray F) : operand_kind :=
  match o with
  | RNum _ => PyNumber
  | RArr _ => array_kind a
  | RScal _ _ => NpScalar
  end.

(** What numpy returns for a result [c] that is not written into an
    operand: a numpy scalar when [c] is 0-dimensional, a new array
    otherwise. *)
Definition np_return (c : ndarray F) (h : heap) : result (raw * heap) :=
  match shape c, elems c with
  | [], [v] => Ok (RScal (dt c) v, h)
  | [], _ => Stuck
  | _ :: _, _ => let '(l, h') := new_array c h in Ok (RArr l, h')
  end.

(** ** Tensor.__init__ *)

(** [Tensor(data, requires_grad, context, name)]. *)
Definition Tensor_init (data : raw) (requires_grad : bool)
    (context : option Context) (name : string) (h : heap) : result (ref * heap) :=
  a ← as_array h data;
  (* self.data = np.array(data, dtype=np.float32) *)
  let '(ld, h1) := new_array (astype_float32 a) h in
  (* self.grad = np.zeros_like(self.data) *)
  let '(lg, h2) := new_array (np_zeros_like (astype_float32 a)) h1 in
  Ok (new_tensor (MkTensor (RArr ld) lg (Bound context) requires_grad name) h2).

(** The property [shape]: [self.data.shape].  A numpy scalar has the
    shape [()]; a Python float has no such attribute. *)
Definition Tensor_shape (h : heap) (t : Tensor) : result (list nat) :=
  match data t with
  | RArr l => a ← get_array h l; Ok (shape a)
  | RScal _ _ => Ok []
  | RNum _ => Raise AttributeError
  end.

(** [no_grad] and [requires_grad_]: they set the flag and return self. *)
Definition no_grad (self : ref) (h : heap) : result heap :=
  t ← get_tensor h self;
  Ok (set_tensor self (with_requires_grad false t) h).

Definition requires_grad_ (self : ref) (h : heap) : result heap :=
  t ← get_tensor h self;
  Ok (set_tensor self (with_requires_grad true t) h).

(** ** Creation helpers *)

(** The keyword arguments that the creation helpers hand on to
    [__init__]; an absent keyword takes the default of [__init__]. *)
Record init_kwargs : Type := MkKw {
  kw_requires_grad : option bool;
  kw_context : option Context;
  kw_name : option string
}.

(** [cls(data, **kwargs)], with the defaults of the signature
    [requires_grad=False, context=None, name='']. *)
Definition Tensor_new (data : raw) (kw : init_kwargs) (h : heap) :
    result (ref * heap) :=
  Tensor_init data (default false (kw_requires_grad kw)) (kw_context kw)
              (default "" (kw_name kw)) h.

(** [cls(a, **kwargs)] for an array [a] that numpy has just made. *)
Definition Tensor_of (a : ndarray F) (kw : init_kwargs) (h : heap) :
    result (ref * heap) :=
  let '(l, h1) := new_array a h in
  Tensor_new (RArr l) kw h1.

Definition zeros (shape : list nat) (kw : init_kwargs) (h : heap) :=
  Tensor_of (np_zeros shape Float32) kw h.

Definition zeros_like (tensor : ref) (kw : init_kwargs) (h : heap) :=
  t ← get_tensor h tensor;
  s ← Tensor_shape h t;
  zeros s kw h.

Definition ones (shape : list nat) (kw : init_kwargs) (h : heap) :=
  Tensor_of (np_ones shape Float32) kw h.

Definition ones_like (tensor : ref) (kw : init_kwargs) (h : heap) :=
  t ← get_tensor h tensor;
  s ← Tensor_shape h t;
  Tensor_of (np_ones s Float32) kw h.

(** [np.empty] leaves the memory as it finds it: [garbage] is what was
    there. *)
Definition empty (shape : list nat) (garbage : nat → F) (kw : init_kwargs)
    (h : heap) :=
  Tensor_of (NDArray shape Float32 (garbage <$> seq 0 (numel shape))) kw h.

(** The random helpers: [draws] is what the generator returns. *)
Definition randn (shape : list nat) (draws : nat → F) (kw : init_kwargs)
    (h : heap) :=
  Tensor_of (NDArray shape Float32 (draws <$> seq 0 (numel shape))) kw h.

Definition uniform (shape : list nat) (draws : nat → F) (kw : init_kwargs)
    (h : heap) :=
  Tensor_of
    (NDArray shape Float32
       ((λ i, round32 (np_arith Sub
                         (round32 (np_arith Mul (draws i) (of_Z 2)))
                         (of_Z 1))) <$> seq 0 (numel shape))) kw h.

Definition arange (stop start : Z) (kw : init_kwargs) (h : heap) :=
  Tensor_of (np_arange start stop) kw h.

Definition eye (dim : nat) (kw : init_kwargs) (h : heap) :=
  Tensor_of (np_eye dim) kw h.

(** ** Tensor.comm *)

(** [forward] of the operator classes: it receives the operands and the
    keyword arguments and returns the computed data and a Context. *)
Variable forward :
  Op → list ref → Kwargs → heap → result (raw * Context * heap).

(** [[t if isinstance(t, Tensor) else Tensor(t) for t in tensors]]. *)
Fixpoint coerce (ts : list value) (h : heap) : result (list ref * heap) :=
  match ts with
  | [] => Ok ([], h)
  | VTensor r :: ts' =>
      '(rs, h') ← coerce ts' h;
      Ok (r :: rs, h')
  | VRaw o :: ts' =>
      '(r, h1) ← Tensor_init o false None "" h;
      '(rs, h') ← coerce ts' h1;
      Ok (r :: rs, h')
  end.

Definition comm (op : Op) (ts : list value) (kwargs : Kwargs) (h : heap) :
    result (ref * heap) :=
  '(operands, h1) ← coerce ts h;
  '(data, context, h2) ← forward op operands kwargs h1;
  Tensor_init data true (Some context) "" h2.

(** ** In-place operators *)

(** [x.data if isinstance(x, Tensor) else x]. *)
Definition operand (x : value) (h : heap) : result raw :=
  match x with
  | VTensor r => t ← get_tensor h r; Ok (data t)
  | VRaw o => Ok o
  end.

(** The statement [d op= y] on the object [d].  An array is updated in
    place and stays the same object.  A Python float and a numpy scalar
    have no in-place method, so the plain operation [d op y] runs and the
    name is bound to its result, a new object: a Python float for two
    Python floats, otherwise what numpy returns, with the shape of [y]. *)
Definition augmented (op : binop) (d y : raw) (h : heap) : result (raw * heap) :=
  match d with
  | RArr l =>
      a ← get_array h l;
      b ← as_array h y;
      let L := result_type (array_kind a) (dt a) (kind_of y b) (dt b) in
      a' ← orelse (np_inplace op L a b) (Raise ValueError);
      Ok (RArr l, set_array l a' h)
  | RNum v =>
      match y with
      | RNum w =>
          r ← orelse (py_arith op v w) (Raise ArithmeticError);
          Ok (RNum r, h)
      | _ =>
          b ← as_array h y;
          let L := result_type PyNumber Float64 (kind_of y b) (dt b) in
          np_return (np_scalar_op op L v b) h
      end
  | RScal d v =>
      b ← as_array h y;
      let L := result_type NpScalar d (kind_of y b) (dt b) in
      np_return (np_scalar_op op L v b) h
  end.

(** [self.data op= x.data if isinstance(x, Tensor) else x; return self] *)
Definition inplace (op : binop) (self : ref) (x : value) (h : heap) :
    result heap :=
  t ← get_tensor h self;
  y ← operand x h;
  '(d, h') ← augmented op (data t) y h;
  Ok (set_tensor self (with_data d t) h').

Definition __iadd__ := inplace Add.
Definition __isub__ := inplace Sub.
Definition __imul__ := inplace Mul.
Definition __ipow__ := inplace Pow.
Definition __itruediv__ := inplace Div.

(** [d @ y]: numpy refuses a scalar on either side, and two Python floats
    have no [@] at all.  The product of two 1-dimensional arrays is
    0-dimensional: numpy returns it as a numpy scalar. *)
Definition matmul (d y : raw) (h : heap) : result (raw * heap) :=
  match d, y with
  | RArr l, RArr l' =>
      a ← get_array h l;
      b ← get_array h l';
      c ← orelse (np_matmul a b) (Raise ValueError);
      np_return c h
  | RNum _, RNum _ => Raise TypeError
  | _, _ => Raise ValueError
  end.

(** [self.data = self.data @ x.data if isinstance(x, Tensor) else x;
    return self].  The conditional expression binds more loosely than
    [@]: the right-hand side is [(self.data @ x.data) if ... else x]. *)
Definition __imatmul__ (self : ref) (x : value) (h : heap) : result heap :=
  match x with
  | VTensor r =>
      t ← get_tensor h self;
      tx ← get_tensor h r;
      '(d, h') ← matmul (data t) (data tx) h;
      Ok (set_tensor self (with_data d t) h')
  | VRaw o =>
      t ← get_tensor h self;
      Ok (set_tensor self (with_data o t) h)
  end.

(** ** Tensor.backward *)

(** [backward] of the operator instances: it receives the instance and
    the gradient of its output (by reference). *)
Variable ctx_backward : Context → loc → heap → result heap.

(** The loop of [build_topo] over [context.parents]; [rec] is the
    recursive call and the state is [(visited, topo)].  A Tensor has no
    [__eq__] or [__hash__] of its own, so [t not in visited] compares
    identities. *)
Fixpoint visit_parents (rec : ref → gset nat * list ref → result (gset nat * list ref))
    (tensor : ref) (ps : list value) (st : gset nat * list ref) :
    result (gset nat * list ref) :=
  match ps with
  | [] => Ok st
  | VTensor t :: ps' =>
      st' ← (if decide (t ∈ st.1) then Ok st
             else (* visited.add(tensor); build_topo(t) *)
               rec t ({[tensor]} ∪ st.1, st.2));
      visit_parents rec tensor ps' st'
  | VRaw _ :: ps' => visit_parents rec tensor ps' st
  end.

(** [if (context := tensor._ctx)]: None is false and an instance of
    [Context] is true, the class having neither [__bool__] nor [__len__]. *)
Fixpoint build_topo (fuel : nat) (h : heap) (tensor : ref)
    (st : gset nat * list ref) : result (gset nat * list ref) :=
  match fuel with
  | 0 => OutOfFuel
  | S fuel' =>
      t ← get_tensor h tensor;
      match _ctx t with
      | Deleted => Raise AttributeError
      | Bound None => Ok st
      | Bound (Some context) =>
          '(visited, topo) ←
             visit_parents (build_topo fuel' h) tensor (parents context) st;
          Ok (visited, topo ++ [tensor])
      end
  end.

(** [tensor._ctx.backward]: the attribute lookups before the call. *)
Definition creator (t : Tensor) : result Context :=
  match _ctx t with
  | Deleted => Raise AttributeError
  | Bound None => Raise AttributeError
  | Bound (Some c) => Ok c
  end.

(** [del tensor._ctx] *)
Definition del_ctx (tensor : ref) (h : heap) : result heap :=
  t ← get_tensor h tensor;
  match _ctx t with
  | Deleted => Raise AttributeError
  | Bound _ => Ok (set_tensor tensor (with_ctx Deleted t) h)
  end.

(** A result of another type with the same failure. *)
Definition fail_as {A B : Type} (r : result A) : result B :=
  match r with
  | Ok _ => Stuck
  | Raise e => Raise e
  | Stuck => Stuck
  | OutOfFuel => OutOfFuel
  end.

(** [for tensor in reversed(topo): ...].  Next to the outcome the loop
    returns the Tensors whose [_ctx.backward] it has called, in order. *)
Fixpoint backward_loop (debug : bool) (ts : list ref) (h : heap) :
    list ref * result heap :=
  match ts with
  | [] => ([], Ok h)
  | tensor :: ts' =>
      match (t ← get_tensor h tensor; c ← creator t; Ok (c, grad t)) with
      | Ok (c, g) =>
          match (h1 ← ctx_backward c g h;
                 if debug then Ok h1 else del_ctx tensor h1) with
          | Ok h2 =>
              let '(calls, r) := backward_loop debug ts' h2 in
              (tensor :: calls, r)
          | r => ([tensor], r)
          end
      | r => ([], fail_as r)
      end
  end.

Definition backward (fuel : nat) (self : ref) (debug : bool) (h : heap) :
    list ref * result heap :=
  match ('(visited, topo) ← build_topo fuel h self (∅, []);
         t ← get_tensor h self;
         s ← Tensor_shape h t;
         Ok (topo, t, s)) with
  | Ok (topo, t, s) =>
      (* self.grad = np.ones(self.shape) *)
      let '(l, h1) := new_array (np_ones s Float64) h in
      backward_loop debug (reverse topo) (set_tensor self (with_grad l t) h1)
  | r => ([], fail_as r)
  end.
End Model.

Arguments raw F : clear implicits.
Arguments value F : clear implicits.
Arguments Context F Op : clear implicits.
Arguments slot F Op : clear implicits.
Arguments Tensor F Op : clear implicits.
Arguments heap F Op : clear implicits.
Arguments init_kwargs F Op : clear implicits.

(** [Context.forward] and [Context.backward] as the base class has them:
    what an operator gets when it does not define its own. *)
Definition Context_forward {F Op Kwargs : Type} (op : Op) (operands : list ref)
    (kwargs : Kwargs) (h : heap F Op) :
    result (raw F * Context F Op * heap F Op) :=
  Raise NotImplementedError.

Definition Context_backward {F Op : Type} (c : Context F Op) (partial : loc)
    (h : heap F Op) : result (heap F Op) :=
  Raise NotImplementedError.

(** Exact integers as scalars, to run the model on concrete inputs; the
    promotion is that of NEP 50: a Python float adapts to the other
    operand, and any two other operands compute in their common dtype. *)
Definition Z_arith (op : binop) (x y : Z) : Z :=
  match op with
  | Add => x + y
  | Sub => x - y
  | Mul => x * y
  | Pow => x ^ y
  | Div => x / y
  end%Z.

#[global] Instance Z_scalar : Scalar Z := {|
  of_Z z := z;
  round32 z := z;
  np_arith := Z_arith;
  py_arith op x y :=
    match op with
    | Div => if decide (y = 0%Z) then None else Some (Z_arith op x y)
    | _ => Some (Z_arith op x y)
    end;
  result_type k1 d1 k2 d2 :=
    match k1, k2 with
    | PyNumber, PyNumber => Float64
    | PyNumber, _ => d2
    | _, PyNumber => d1
    | _, _ => promote d1 d2
    end
|}.

(** ** A summing operator

    An operator in the style of the Add of [mathops], for any number of
    operands: [forward] adds the operands up into a new array and saves them
    as parents; [backward] adds the incoming gradient to the [grad] of every
    Tensor among the parents, in place. *)

Inductive sum_op : Type := Sum.

Section SumOperator.
Context {F : Type} `{Scalar F}.

Fixpoint sum_into (h : heap F sum_op) (acc : ndarray F) (rs : list ref) :
    result (ndarray F) :=
  match rs with
  | [] => Ok acc
  | r :: rs' =>
      t ← get_tensor h r;
      b ← as_array h (data t);
      acc' ← orelse (np_inplace Add (promote (dt acc) (dt b)) acc b)
                    (Raise ValueError);
      sum_into h acc' rs'
  end.

Definition sum_forward (op : sum_op) (operands : list ref) (kwargs : unit)
    (h : heap F sum_op) : result (raw F * Context F sum_op * heap F sum_op) :=
  match operands with
  | [] => Raise TypeError
  | r :: rs =>
      t ← get_tensor h r;
      a ← as_array h (data t);
      out ← sum_into h a rs;
      let '(l, h') := new_array out h in
      Ok (RArr l, MkContext op (VTensor <$> operands), h')
  end.

(** [for p in self.parents: p.grad += partial] *)
Fixpoint accumulate (ps : list (value F)) (partial : loc) (h : heap F sum_op) :
    result (heap F sum_op) :=
  match ps with
  | [] => Ok h
  | VTensor p :: ps' =>
      t ← get_tensor h p;
      g ← get_array h (grad t);
      d ← get_array h partial;
      g' ← orelse (np_inplace Add (promote (dt g) (dt d)) g d)
                  (Raise ValueError);
      accumulate ps' partial (set_array (grad t) g' h)
  | VRaw _ :: ps' => accumulate ps' partial h
  end.

Definition sum_backward (c : Context F sum_op) (partial : loc)
    (h : heap F sum_op) : result (heap F sum_op) :=
  accumulate (parents c) partial h.
End SumOperator.

(** ** A graph with a shared inner node

    [x = Tensor(2.0); p = x.f(); n = p.f(); u = p + n; root = u + n],
    every operation being the summing operator.  The Tensors are numbered
    in the order of their creation: x is 0, p is 1, n is 2, u is 3 and
    root is 4. *)
Definition shared_graph : result (heap Z sum_op) :=
  '(x, h) ← Tensor_init (RNum 2%Z) false None "" (MkHeap [] []);
  '(p, h) ← comm sum_forward Sum [VTensor x] () h;
  '(n, h) ← comm sum_forward Sum [VTensor p] () h;
  '(u, h) ← comm sum_forward Sum [VTensor p; VTensor n] () h;
  '(root, h) ← comm sum_forward Sum [VTensor u; VTensor n] () h;
  Ok h.

Definition shared_heap : heap Z sum_op :=
  match shared_graph with Ok h => h | _ => MkHeap [] [] end.

(** ** Two matrices

    [a = Tensor(np.ones((2, 3))); b = Tensor(np.ones((3, 4)))]: a is Tensor 0
    and b is Tensor 1. *)
Definition matrices : heap Z sum_op :=
  match ('(a, h) ← ones [2; 3] (MkKw None None None) (MkHeap [] []);
         '(b, h) ← ones [3; 4] (MkKw None None None) h;
         Ok h) with
  | Ok h => h
  | _ => MkHeap [] []
  end.

(** ** A graph without sharing

    [a = Tensor(2.0); b = Tensor(3.0); c = a + b; d = c + 5.0]: a is 0,
    b is 1, c is 2, the Tensor made of 5.0 is 3 and d is 4. *)
Definition chain_heap : heap Z sum_op :=
  match ('(a, h) ← Tensor_init (RNum 2%Z) false None "" (MkHeap [] []);
         '(b, h) ← Tensor_init (RNum 3%Z) false None "" h;
         '(c, h) ← comm sum_forward Sum [VTensor a; VTensor b] () h;
         '(d, h) ← comm sum_forward Sum [VTensor c; VRaw (RNum 5%Z)] () h;
         Ok h) with
  | Ok h => h
  | _ => MkHeap [] []
  end.

(** The heap after [d.backward()] on that graph, without [debug]. *)
Definition chain_done : heap Z sum_op :=
  match (backward sum_backward 5 4 false chain_heap).2 with
  | Ok h => h
  | _ => chain_heap
  end.

(** ** Two vectors

    [v = Tensor(np.ones(3)); w = Tensor(np.ones(3))]: v is Tensor 0 and w
    is Tensor 1. *)
Definition vectors : heap Z sum_op :=
  match ('(v, h) ← ones [3] (MkKw None None None) (MkHeap [] []);
         '(w, h) ← ones [3] (MkKw None None None) h;
         Ok h) with
  | Ok h => h
  | _ => MkHeap [] []
  end.

(** ** A sum that broadcasts

    [x = Tensor(np.ones(2)); y = Tensor(3.0); z = x + y] with the summing
    operator: x is 0, y is 1 and z is 2.  The [backward] of the operator
    adds the gradient of z, of shape (2,), into the 0-dimensional grad of
    y, which numpy refuses. *)
Definition broadcast_heap : heap Z sum_op :=
  match ('(x, h) ← ones [2] (MkKw None None None) (MkHeap [] []);
         '(y, h) ← Tensor_init (RNum 3%Z) false None "" h;
         '(z, h) ← comm sum_forward Sum [VTensor x; VTensor y] () h;
         Ok h) with
  | Ok h => h
  | _ => MkHeap [] []
  end.



Definition empty_heap : heap Z sum_op := MkHeap [] [].
Definition no_kwargs : init_kwargs Z sum_op := MkKw None None None.

(** ** Properties of heaps and of runs *)

Section Properties.
Context {F : Type} `{Scalar F} {Op : Type}.
Implicit Types (h : heap F Op) (t : Tensor F Op) (c : Context F Op).

(** [u] consumes [n]: [n] is among the parents of the creator of [u]. *)
Definition consumes h (u n : ref) : Prop :=
  ∃ t c, tensors h !! u = Some t ∧ _ctx t = Bound (Some c)
         ∧ VTensor n ∈ parents c.

(** A sequence of calls of [_ctx.backward] is topologically sound when
    every Tensor is processed after all the Tensors that consume it. *)
Definition topologically_sound h (calls : list ref) : Prop :=
  ∀ i j u n, calls !! i = Some n → calls !! j = Some u →
             consumes h u n → j < i.

(** How many times the creator of [r] had its [backward] called. *)
Definition times_called (r : ref) (calls : list ref) : nat :=
  length (filter (λ x, x = r) calls).

(** "grad has the same shape as value", for the Tensor [r]: [r.shape]
    returns the shape of the array that [r.grad] designates. *)
Definition same_shape h (r : ref) : Prop :=
  ∃ t s g, tensors h !! r = Some t ∧ Tensor_shape h t = Ok s
           ∧ arrays h !! grad t = Some g ∧ shape g = s.

(** The value of the Tensor [r] is a numpy array. *)
Definition array_valued h (r : ref) : Prop :=
  ∃ t l, tensors h !! r = Some t ∧ data t = RArr l.

(** A leaf as [__init__] makes it from the array [a] that numpy reads in
    the data: no creator, a single-precision copy of [a] as value and a
    zero gradient of the same shape. *)
Definition zero_leaf h (r : ref) (trainable : bool) (a : ndarray F) : Prop :=
  ∃ t l d, tensors h !! r = Some t ∧ _ctx t = Bound None
           ∧ requires_grad t = trainable
           ∧ data t = RArr l ∧ arrays h !! l = Some d
           ∧ d = astype_float32 a ∧ dt d = Float32
           ∧ arrays h !! grad t = Some (np_zeros (shape d) Float32).

(** The call [run] returns a new Tensor that is such a leaf. *)
Definition makes_leaf h (trainable : bool) (run : result (ref * heap F Op)) : Prop :=
  ∃ h' a, run = Ok (length (tensors h), h')
          ∧ zero_leaf h' (length (tensors h)) trainable a.

(** [h'] is [h] with more objects. *)
Definition extends h h' : Prop :=
  tensors h `prefix_of` tensors h' ∧ arrays h `prefix_of` arrays h'.

(** The operand [v] of [comm] and the Tensor [r] that stands for it:
    a Tensor stands for itself, anything else for a new leaf made of it. *)
Definition coerced h h1 (v : value F) (r : ref) : Prop :=
  match v with
  | VTensor r0 => r = r0
  | VRaw o =>
      length (tensors h) ≤ r
      ∧ ∃ a, as_array h1 o = Ok a ∧ zero_leaf h1 r false a
  end.


(** The value buffer of [self] is its own: it is the grad buffer of no
    Tensor and the value buffer of no other Tensor. *)
Definition sole_owner h (self : ref) : Prop :=
  ∀ ts l, tensors h !! self = Some ts → data ts = RArr l →
    ∀ r t, tensors h !! r = Some t →
           grad t ≠ l ∧ (r ≠ self → data t ≠ RArr l).



(** The parents of every creator were made before the Tensor itself. *)
Definition parents_below (r : ref) t : Prop :=
  match _ctx t with
  | Bound (Some c) =>
      Forall (λ v, match v with VTensor p => p < r | VRaw _ => True end)
             (parents c)
  | _ => True
  end.

Definition acyclic h : Prop :=
  ∀ r t, tensors h !! r = Some t → parents_below r t.

(** Every [grad] designates an array, and none of them is the array [d]. *)
Definition grads_allocated h : Prop :=
  ∀ r t, tensors h !! r = Some t → grad t < length (arrays h).
Definition no_grad_at h (d : loc) : Prop :=
  ∀ r t, tensors h !! r = Some t → grad t ≠ d.


(** Every array of [h] is in [h'] with the shape it had. *)
Definition shapes_kept h h' : Prop :=
  ∀ l a, arrays h !! l = Some a →
         ∃ a', arrays h' !! l = Some a' ∧ shape a' = shape a.

(** Every Tensor that satisfies "grad has the same shape as value" in
    [h] still does in [h']. *)
Definition keeps_shapes h h' : Prop :=
  ∀ r, same_shape h r → same_shape h' r.

(** The contract of an operator's [backward] (the docstring of
    [Context.backward]: "to update grad of parents"): between [h] and
    [h'] only the [grad] of the Tensors among the parents may change,
    either in place or by rebinding it to a new array. *)
Definition grad_only c h h' : Prop :=
  length (tensors h') = length (tensors h)
  ∧ (∀ r t, tensors h !! r = Some t →
       ∃ t', tensors h' !! r = Some t'
             ∧ data t' = data t ∧ _ctx t' = _ctx t
             ∧ requires_grad t' = requires_grad t ∧ name t' = name t
             ∧ (VTensor r ∉ parents c → grad t' = grad t)
             ∧ (grad t' = grad t ∨ length (arrays h) ≤ grad t'))
  ∧ (∀ l a, arrays h !! l = Some a →
       (∀ r t, VTensor r ∈ parents c → tensors h !! r = Some t → grad t ≠ l) →
       arrays h' !! l = Some a).

Definition follows_contract
    (ctx_backward : Context F Op → loc → heap F Op → result (heap F Op)) : Prop :=
  ∀ c g h h', ctx_backward c g h = Ok h' → grad_only c h h'.

(** Operators that keep "grad has the same shape as value". *)
Definition backward_keeps_shapes
    (ctx_backward : Context F Op → loc → heap F Op → result (heap F Op)) : Prop :=
  ∀ c g h h', ctx_backward c g h = Ok h' → keeps_shapes h h'.

Definition forward_keeps_shapes {Kwargs : Type}
    (forward : Op → list ref → Kwargs → heap F Op →
               result (raw F * Context F Op * heap F Op)) : Prop :=
  ∀ op rs kw h d c h',
    forward op rs kw h = Ok (d, c, h') → keeps_shapes h h'.
End Properties.

(** Either an augmented assignment of the class or [@=]. *)
Inductive inplace_op : Type :=
  | Arith (op : binop)
  | MatMul.

Definition apply_inplace {F : Type} `{Scalar F} {Op : Type} (o : inplace_op) :
    ref → value F → heap F Op → result (heap F Op) :=
  match o with
  | Arith Add => __iadd__
  | Arith Sub => __isub__
  | Arith Mul => __imul__
  | Arith Pow => __ipow__
  | Arith Div => __itruediv__
  | MatMul => __imatmul__
  end.

(** ** More properties of heaps and of runs *)

Section TraversalProperties.
Context {F : Type} `{Scalar F} {Op : Type}.
Implicit Types (h : heap F Op) (t : Tensor F Op) (c : Context F Op).

(** The Tensor [r] has a creator: [r._ctx] is bound to an operator
    instance. *)
Definition has_creator h (r : ref) : Prop :=
  ∃ t c, tensors h !! r = Some t ∧ _ctx t = Bound (Some c).

(** The two heaps have the same Tensors with the same [_ctx]: the same
    graph. *)
Definition same_slots h h' : Prop :=
  ∀ r, _ctx <$> tensors h !! r = _ctx <$> tensors h' !! r.

(** Every reference held by a creator designates a Tensor of the heap. *)
Definition refs_valid h : Prop :=
  ∀ r t c p, tensors h !! r = Some t → _ctx t = Bound (Some c) →
             VTensor p ∈ parents c → p < length (tensors h).

(** Every creator has a leaf among its parents: a Tensor whose [_ctx] is
    None. *)
Definition leafy h : Prop :=
  ∀ r t c, tensors h !! r = Some t → _ctx t = Bound (Some c) →
           ∃ p tp, VTensor p ∈ parents c ∧ tensors h !! p = Some tp
                   ∧ _ctx tp = Bound None.

(** In the list [topo] every Tensor comes after those of its parents that
    have a creator. *)
Definition parents_first h (topo : list ref) : Prop :=
  ∀ j u n, topo !! j = Some u → consumes h u n → has_creator h n →
           ∃ i, i < j ∧ topo !! i = Some n.
End TraversalProperties.

(** ** States of the traversal *)

Section TraversalStates.
Context {F : Type} `{Scalar F} {Op : Type}.
Implicit Types (h : heap F Op) (st : gset nat * list ref).

(** Every listed Tensor is marked, none is listed twice, and every mark is
    on a Tensor that has a creator. *)
Definition tidy h st : Prop :=
  (∀ x, x ∈ st.2 → x ∈ st.1) ∧ NoDup st.2 ∧ (∀ x, x ∈ st.1 → has_creator h x).

(** Every marked Tensor is listed already, unless it was made after
    [r]: then it is one of those being expanded. *)
Definition settled (r : ref) st : Prop :=
  ∀ x, x ∈ st.1 → x ∈ st.2 ∨ r < x.
End TraversalStates.

(** ** The depth of the traversal *)

(** How many of the first [n] Tensors bear no mark. *)
Definition unmarked (n : nat) (visited : gset nat) : nat :=
  size (set_seq 0 n ∖ visited : gset nat).

(** The traversal returns or raises: it is neither out of fuel nor stuck. *)
Definition returns {A : Type} (r : result A) : Prop :=
  (∃ a, r = Ok a) ∨ r = Raise AttributeError.

(** Two Tensors that consume each other, as an assignment to
    [_ctx.parents] can make them. *)
Definition cycle_heap : heap Z sum_op :=
  MkHeap [MkTensor (RArr 0) 1 (Bound (Some (MkContext Sum [VTensor 1]))) true "";
          MkTensor (RArr 2) 3 (Bound (Some (MkContext Sum [VTensor 0]))) true ""]
         [NDArray [] Float32 [1%Z]; NDArray [] Float32 [0%Z];
          NDArray [] Float32 [1%Z]; NDArray [] Float32 [0%Z]].

(** ** Building the graph *)

Section GraphBuilding.
Context {F : Type} `{Scalar F} {Op Kwargs : Type}.
Implicit Types (h : heap F Op).

(** What [comm] expects of the [forward] of an operator: it makes no
    Tensor, leaves the arrays that exist alone (it may allocate its
    result) and saves as parents no Tensor other than its operands. *)
Definition forward_contract
    (forward : Op → list ref → Kwargs → heap F Op →
               result (raw F * Context F Op * heap F Op)) : Prop :=
  ∀ op rs kw h d c h',
    forward op rs kw h = Ok (d, c, h') →
    tensors h' = tensors h ∧ arrays h `prefix_of` arrays h'
    ∧ ∀ p, VTensor p ∈ parents c → p ∈ rs.

(** The operands that [comm] has to turn into Tensors. *)
Definition is_raw (v : value F) : bool :=
  match v with VTensor _ => false | VRaw _ => true end.

(** The Tensors among the operands exist. *)
Definition operands_exist h (ts : list (value F)) : Prop :=
  Forall (λ v, match v with
               | VTensor p => p < length (tensors h)
               | VRaw _ => True
               end) ts.
End GraphBuilding.

(** ** Invariants of the buffers *)

Section Buffers.
Context {F : Type} `{Scalar F} {Op : Type}.
Implicit Types (h : heap F Op) (t : Tensor F Op).

(** The value of every Tensor is an array of float32. *)
Definition values_float32 h : Prop :=
  ∀ r t, tensors h !! r = Some t →
         ∃ l a, data t = RArr l ∧ arrays h !! l = Some a ∧ dt a = Float32.

(** Every Tensor owns its buffers: [grad], and [data] when it is an
    array, designate arrays of the heap, two of them for one Tensor, and no
    two Tensors have one in common. *)
Definition owned h : Prop :=
  (∀ r t, tensors h !! r = Some t →
          grad t < length (arrays h)
          ∧ ∀ l, data t = RArr l → l < length (arrays h) ∧ grad t ≠ l)
  ∧ (∀ r r' t t', r ≠ r' →
       tensors h !! r = Some t → tensors h !! r' = Some t' →
       grad t ≠ grad t'
       ∧ ∀ l, data t = RArr l → data t' ≠ RArr l ∧ grad t' ≠ l).
End Buffers.

(** ** The mathematical methods

    The operator classes of [giagrad.mathops], [giagrad.mlops] and
    [giagrad.reductionops] that the methods hand to [comm]. *)
Inductive op_class : Type :=
  | mops_Exp | mops_Log | mops_Reciprocal | mops_Abs
  | mops_Add | mops_Sub | mops_Mul | mops_Pow | mops_Matmul | mops_Div
  | mlops_ReLU
  | rops_Mean | rops_Max | rops_Min | rops_Sum.

Module TensorOps.
Section Methods.
Context {F : Type} `{Scalar F} {Kwargs : Type}.
Variable forward :
  op_class → list ref → Kwargs → heap F op_class →
  result (raw F * Context F op_class * heap F op_class).
(** The empty [**kwargs] of a call without keywords. *)
Variable no_kw : Kwargs.
(** The literal [0.5]. *)
Variable one_half : F.

Abbreviation run := (result (ref * heap F op_class)).

(** Binary methods and their reflected versions. *)
Definition __add__ (self : ref) (x : value F) h : run :=
  comm forward mops_Add [VTensor self; x] no_kw h.
Definition __radd__ (self : ref) (x : value F) h : run :=
  comm forward mops_Add [x; VTensor self] no_kw h.
Definition __sub__ (self : ref) (x : value F) h : run :=
  comm forward mops_Sub [VTensor self; x] no_kw h.
Definition __rsub__ (self : ref) (x : value F) h : run :=
  comm forward mops_Sub [x; VTensor self] no_kw h.
Definition __mul__ (self : ref) (x : value F) h : run :=
  comm forward mops_Mul [VTensor self; x] no_kw h.
Definition __rmul__ (self : ref) (x : value F) h : run :=
  comm forward mops_Mul [x; VTensor self] no_kw h.
Definition __pow__ (self : ref) (x : value F) h : run :=
  comm forward mops_Pow [VTensor self; x] no_kw h.
Definition __rpow__ (self : ref) (x : value F) h : run :=
  comm forward mops_Pow [x; VTensor self] no_kw h.
Definition __matmul__ (self : ref) (x : value F) h : run :=
  comm forward mops_Matmul [VTensor self; x] no_kw h.
Definition __rmatmul__ (self : ref) (x : value F) h : run :=
  comm forward mops_Matmul [x; VTensor self] no_kw h.
Definition __truediv__ (self : ref) (x : value F) h : run :=
  comm forward mops_Div [VTensor self; x] no_kw h.
Definition __rtruediv__ (self : ref) (x : value F) h : run :=
  comm forward mops_Div [x; VTensor self] no_kw h.

(** The simple API. *)
Definition add := __add__.
Definition sub := __sub__.
Definition mul := __mul__.
Definition pow := __pow__.
Definition matmul := __matmul__.
Definition div := __truediv__.

(** Unary methods. *)
Definition sqrt (self : ref) h : run := pow self (VRaw (RNum one_half)) h.
Definition square (self : ref) h : run := pow self (VRaw (RNum (of_Z 2))) h.
Definition exp (self : ref) h : run :=
  comm forward mops_Exp [VTensor self] no_kw h.
Definition log (self : ref) h : run :=
  comm forward mops_Log [VTensor self] no_kw h.
Definition reciprocal (self : ref) h : run :=
  comm forward mops_Reciprocal [VTensor self] no_kw h.
Definition abs (self : ref) h : run :=
  comm forward mops_Abs [VTensor self] no_kw h.

(** [return 0.0-self]: a float does not know how to subtract a Tensor, so
    Python evaluates the expression as [self.__rsub__(0.0)]. *)
Definition __neg__ (self : ref) h : run :=
  __rsub__ self (VRaw (RNum (of_Z 0))) h.

Definition relu (self : ref) h : run :=
  comm forward mlops_ReLU [VTensor self] no_kw h.

(** Reductions. *)
Definition mean (self : ref) h : run :=
  comm forward rops_Mean [VTensor self] no_kw h.
Definition max (self : ref) h : run :=
  comm forward rops_Max [VTensor self] no_kw h.
Definition min (self : ref) h : run :=
  comm forward rops_Min [VTensor self] no_kw h.
Definition sum (self : ref) h : run :=
  comm forward rops_Sum [VTensor self] no_kw h.
End Methods.
End TensorOps.

(** ** More concrete heaps *)

(** The heap after [d.backward(debug=True)] on the graph without sharing. *)
Definition chain_debug : heap Z sum_op :=
  match (backward sum_backward 5 4 true chain_heap).2 with
  | Ok h => h
  | _ => chain_heap
  end.

(** A stand-in for the Sub of [mathops], to run the methods on: it
    subtracts with numpy's broadcasting into a new array and saves its two
    operands; every other class has the [forward] of the base class. *)
Definition sub_forward (op : op_class) (operands : list ref) (kwargs : unit)
    (h : heap Z op_class) :
    result (raw Z * Context Z op_class * heap Z op_class) :=
  match op, operands with
  | mops_Sub, [x; y] =>
      tx ← get_tensor h x;
      ty ← get_tensor h y;
      a ← as_array h (data tx);
      b ← as_array h (data ty);
      out ← orelse (np_inplace Sub (promote (dt a) (dt b)) a b)
                   (Raise ValueError);
      let '(l, h') := new_array out h in
      Ok (RArr l, MkContext op [VTensor x; VTensor y], h')
  | _, _ => Context_forward op operands kwargs h
  end.

(** [a = Tensor(2.0)] alone. *)
Definition one_leaf : heap Z op_class :=
  match Tensor_init (RNum 2%Z) false None "" (MkHeap [] []) with
  | Ok (_, h) => h
  | _ => MkHeap [] []
  end.

(** * Theorems *)

(** ** The result monad *)

Lemma bind_Ok {A B : Type} (m : result A) (k : A → result B) (b : B) :
  m ≫= k = Ok b → ∃ a, m = Ok a ∧ k a = Ok b.
Proof. destruct m; simpl; intros; try discriminate; eauto. Qed.

Lemma orelse_Ok {A : Type} (o : option A) (r : result A) (a : A) :
  (∀ x, r ≠ Ok x) → orelse o r = Ok a → o = Some a.
Proof. destruct o; simpl; intros Hr ?; [congruence | by destruct (Hr a)]. Qed.

(** Inversion of a successful run, one bind at a time. *)
Ltac inv_ok :=
  repeat match goal with
  | H : _ ≫= _ = Ok _ |- _ =>
      let res := fresh "res" in let Hres := fresh "Hres" in
      apply bind_Ok in H as (res & Hres & H)
  | H : orelse _ Stuck = Ok _ |- _ => apply orelse_Ok in H; [| done]
  | H : orelse _ (Raise _) = Ok _ |- _ => apply orelse_Ok in H; [| done]
  | H : Ok _ = Ok _ |- _ => injection H as ?
  | H : Raise _ = Ok _ |- _ => discriminate H
  | H : Stuck = Ok _ |- _ => discriminate H
  | H : OutOfFuel = Ok _ |- _ => discriminate H
  | H : (let '(_, _) := ?p in _) = Ok _ |- _ => destruct p eqn:?
  end.

(** ** The traversal of [backward] *)

(** C1 (topological soundness).  On the graph with the shared inner node
    [n], consumed by [u] and by the root, [backward] calls the creator of
    [n] before the creator of [u] has added its contribution to [n.grad]:
    the sequence of calls is not topologically sound, with or without
    [debug]. *)
Theorem C1_shared_node_processed_before_consumer :
  ∀ debug : bool,
    ¬ topologically_sound shared_heap
        (backward sum_backward 5 4 debug shared_heap).1.
Proof.
  intros debug.
  assert (Hn : (backward sum_backward 5 4 debug shared_heap).1 !! 1 = Some 2).
  { destruct debug; vm_compute; reflexivity. }
  assert (Hu : (backward sum_backward 5 4 debug shared_heap).1 !! 2 = Some 3).
  { destruct debug; vm_compute; reflexivity. }
  assert (Hcons : consumes shared_heap 3 2).
  { clear. eexists _, _. split; [vm_compute; reflexivity |].
    split; [reflexivity |]. simpl. repeat constructor. }
  intros Hsound.
  pose proof (Hsound 1 2 3 2 Hn Hu Hcons) as Hlt.
  clear -Hlt. lia.
Qed.

(** C2 (one call per creator).  On the same graph with [debug] set, the
    creator of the shared node [n] has its [backward] called twice, and
    [p.grad] ends at 4 where the derivative of the root by [p] is 3;
    without [debug] the second visit of [n] finds [_ctx] deleted and the
    pass ends in AttributeError after three calls. *)
Theorem C2_shared_node_called_twice :
  times_called 2 (backward sum_backward 5 4 true shared_heap).1 = 2
  ∧ (∃ h', (backward sum_backward 5 4 true shared_heap).2 = Ok h'
           ∧ arrays h' !! 4 = Some (NDArray [] Float32 [4%Z]))
  ∧ backward sum_backward 5 4 false shared_heap = ([4; 2; 3], Raise AttributeError).
Proof.
  split; [vm_compute; reflexivity |]. split; [| vm_compute; reflexivity].
  eexists. split; vm_compute; reflexivity.
Qed.

(** ** Reading and writing the heap *)

Section Heap.
Context {F : Type} `{Scalar F} {Op : Type}.
Implicit Types (h : heap F Op) (t : Tensor F Op) (a : ndarray F).

Lemma get_tensor_Ok h r t : get_tensor h r = Ok t ↔ tensors h !! r = Some t.
Proof. unfold get_tensor. destruct (tensors h !! r); simpl; naive_solver. Qed.

Lemma get_array_Ok h l a : get_array h l = Ok a ↔ arrays h !! l = Some a.
Proof. unfold get_array. destruct (arrays h !! l); simpl; naive_solver. Qed.

Lemma set_tensor_lookup h r t t0 :
  tensors h !! r = Some t0 → tensors (set_tensor r t h) !! r = Some t.
Proof. intros Hr. apply list_lookup_insert_eq. by eapply lookup_lt_Some. Qed.

Lemma set_tensor_lookup_ne h r r' t :
  r ≠ r' → tensors (set_tensor r t h) !! r' = tensors h !! r'.
Proof. intros Hne. by apply list_lookup_insert_ne. Qed.

(** After an update of [self] every Tensor is still there, changed only if
    it is [self]. *)
Lemma set_tensor_lookup_Some h self t r t0 :
  tensors h !! r = Some t0 →
  ∃ t', tensors (set_tensor self t h) !! r = Some t'
        ∧ (r = self → t' = t) ∧ (r ≠ self → t' = t0).
Proof.
  intros Hr. destruct (decide (r = self)) as [-> | Hne].
  - exists t. erewrite set_tensor_lookup; naive_solver.
  - exists t0. rewrite set_tensor_lookup_ne; naive_solver.
Qed.

Lemma set_tensor_inv h self t r t' :
  tensors (set_tensor self t h) !! r = Some t' →
  (r = self ∧ t' = t) ∨ (r ≠ self ∧ tensors h !! r = Some t').
Proof.
  unfold set_tensor; simpl. intros Hr.
  apply list_lookup_insert_Some in Hr as [(-> & -> & _) | (Hne & Hr)]; eauto.
Qed.

Lemma new_array_lookup_old h a l b :
  arrays h !! l = Some b → arrays (new_array a h).2 !! l = Some b.
Proof. intros Hl. simpl. by apply lookup_app_l_Some. Qed.

Lemma new_array_lookup_new h a :
  arrays (new_array a h).2 !! (new_array a h).1 = Some a.
Proof. simpl. by rewrite list_lookup_middle. Qed.

Lemma Tensor_shape_Ok h t s :
  Tensor_shape h t = Ok s ↔
  (∃ l a, data t = RArr l ∧ arrays h !! l = Some a ∧ s = shape a)
  ∨ (∃ d v, data t = RScal d v ∧ s = []).
Proof.
  unfold Tensor_shape. split.
  - destruct (data t) as [v | l | d v]; [intros [=] | |].
    + intros Hs. apply bind_Ok in Hs as (a & Ha%get_array_Ok & [= <-]).
      left. eauto.
    + intros [= <-]. right. eauto.
  - intros [(l & a & -> & Ha%get_array_Ok & ->) | (d & v & -> & ->)];
      [by rewrite Ha | done].
Qed.

Lemma Tensor_shape_array h t l a :
  data t = RArr l → arrays h !! l = Some a → Tensor_shape h t = Ok (shape a).
Proof. intros Hd Ha. apply Tensor_shape_Ok. left. eauto. Qed.

(** What numpy returns is a numpy scalar or a new array. *)
Lemma np_return_inv (c : ndarray F) h (d : raw F) h' :
  np_return c h = Ok (d, h') →
  (∃ v, shape c = [] ∧ elems c = [v] ∧ d = RScal (dt c) v ∧ h' = h)
  ∨ (shape c ≠ [] ∧ d = RArr (length (arrays h))
     ∧ h' = MkHeap (tensors h) (arrays h ++ [c])).
Proof.
  unfold np_return, new_array.
  destruct (shape c) as [| n s] eqn:Hs.
  - destruct (elems c) as [| v [| w l]]; try done.
    intros [= <- <-]. left. eauto.
  - intros [= <- <-]. by right.
Qed.

Lemma np_return_frame (c : ndarray F) h (d : raw F) h' :
  np_return c h = Ok (d, h') →
  tensors h' = tensors h
  ∧ arrays h `prefix_of` arrays h'
  ∧ ∀ l, d = RArr l → l = length (arrays h) ∧ arrays h' !! l = Some c.
Proof.
  intros [(v & _ & _ & -> & ->) | (_ & -> & ->)]%np_return_inv.
  - done.
  - simpl. split; [done |]. split; [by apply prefix_app_r |].
    intros l [= <-]. split; [done |]. by apply list_lookup_middle.
Qed.
End Heap.

(** ** In-place operators *)

Section InPlace.
Context {F : Type} `{Scalar F} {Op : Type}.
Implicit Types (h : heap F Op) (t : Tensor F Op) (a : ndarray F).

(** [d op= y] keeps every Tensor and every array other than [d]. *)
(** An augmented assignment either updates the array [d] in place, or
    binds the name to a new object and leaves every array alone. *)
Lemma augmented_inv op (d y d' : raw F) h h' :
  augmented op d y h = Ok (d', h') →
  (∃ l a b a', d = RArr l ∧ arrays h !! l = Some a ∧ as_array h y = Ok b
               ∧ np_inplace op (result_type (array_kind a) (dt a)
                                            (kind_of y b) (dt b)) a b = Some a'
               ∧ d' = RArr l ∧ h' = set_array l a' h)
  ∨ ((∀ l, d ≠ RArr l) ∧ tensors h' = tensors h
     ∧ arrays h `prefix_of` arrays h'
     ∧ ∀ l, d' = RArr l → l = length (arrays h) ∧ l < length (arrays h')).
Proof.
  assert (Hret : ∀ c, np_return c h = Ok (d', h') →
            tensors h' = tensors h ∧ arrays h `prefix_of` arrays h'
            ∧ ∀ l, d' = RArr l → l = length (arrays h) ∧ l < length (arrays h')).
  { intros c (? & ? & Hnew)%np_return_frame. split; [done |]. split; [done |].
    intros l Hl. destruct (Hnew l Hl) as [? ?%lookup_lt_Some]. done. }
  unfold augmented. destruct d as [v | l | ds v].
  - intros Hrun. right. split; [done |].
    destruct y as [w | l' | dy w].
    + apply bind_Ok in Hrun as (r & _ & [= <- <-]). done.
    + apply bind_Ok in Hrun as (b & _ & Hrun). by eapply Hret.
    + apply bind_Ok in Hrun as (b & _ & Hrun). by eapply Hret.
  - intros Hrun. left.
    apply bind_Ok in Hrun as (a & Ha%get_array_Ok & Hrun).
    apply bind_Ok in Hrun as (b & Hb & Hrun).
    apply bind_Ok in Hrun as (a' & Hnp & [= <- <-]).
    apply orelse_Ok in Hnp; [| done]. by exists l, a, b, a'.
  - intros Hrun. right. split; [done |].
    apply bind_Ok in Hrun as (b & _ & Hrun). by eapply Hret.
Qed.

Lemma augmented_frame op (d y d' : raw F) h h' :
  augmented op d y h = Ok (d', h') →
  tensors h' = tensors h
  ∧ ∀ l a, arrays h !! l = Some a → d ≠ RArr l → arrays h' !! l = Some a.
Proof.
  intros [(l & a & b & a' & -> & _ & _ & _ & -> & ->)
         | (_ & Hts & Hpre & _)]%augmented_inv.
  - split; [done |]. intros l0 a0 Hl0 Hne. simpl.
    rewrite list_lookup_insert_ne; [done |]. congruence.
  - split; [done |]. intros l0 a0 Hl0 _. by eapply prefix_lookup_Some.
Qed.

(** A matrix product that returns is that of two arrays. *)
Lemma matmul_inv (d y d' : raw F) h h' :
  matmul d y h = Ok (d', h') →
  ∃ l l' a b c, d = RArr l ∧ y = RArr l'
                ∧ arrays h !! l = Some a ∧ arrays h !! l' = Some b
                ∧ np_matmul a b = Some c ∧ np_return c h = Ok (d', h').
Proof.
  unfold matmul. destruct d as [v | l | ds v], y as [w | l' | dy w]; try done.
  intros Hrun.
  apply bind_Ok in Hrun as (a & Ha%get_array_Ok & Hrun).
  apply bind_Ok in Hrun as (b & Hb%get_array_Ok & Hrun).
  apply bind_Ok in Hrun as (c & Hnp & Hret).
  apply orelse_Ok in Hnp; [| done]. by exists l, l', a, b, c.
Qed.

Lemma matmul_frame (d y d' : raw F) h h' :
  matmul d y h = Ok (d', h') →
  tensors h' = tensors h
  ∧ ∀ l a, arrays h !! l = Some a → arrays h' !! l = Some a.
Proof.
  intros (l & l' & a & b & c & _ & _ & _ & _ & _ & Hret)%matmul_inv.
  destruct (np_return_frame _ _ _ _ Hret) as (Hts & Hpre & _).
  split; [done |]. intros l0 a0 Hl0. by eapply prefix_lookup_Some.
Qed.




Lemma np_matmul_scalar (a b c : ndarray F) :
  np_matmul a b = Some c → shape c = [] → ∃ v, elems c = [v].
Proof.
  unfold np_matmul. intros Hc Hs.
  destruct (decide (length (shape a) = 0 ∨ length (shape b) = 0)); [done |].
  destruct (decide (length (shape a) = 1)) as [Ha | Ha];
    destruct (decide (length (shape b) = 1)) as [Hb | Hb].
  - destruct (shape a) as [| k [| ? ?]]; try done.
    destruct (shape b) as [| k' [| ? ?]]; try done. simpl in Hc.
    destruct (decide (k = k')); [| done]. simpl in Hc.
    apply bind_Some in Hc as (ea & _ & Hc).
    apply bind_Some in Hc as (eb & _ & Hc).
    injection Hc as <-. simpl. eauto.
  - repeat (case_match; try discriminate).
    apply bind_Some in Hc as (batch & _ & Hc).
    apply bind_Some in Hc as (ea & _ & Hc).
    apply bind_Some in Hc as (eb & _ & Hc).
    injection Hc as <-. simpl in Hs. by apply app_eq_nil in Hs as [_ ?].
  - repeat (case_match; try discriminate).
    apply bind_Some in Hc as (batch & _ & Hc).
    apply bind_Some in Hc as (ea & _ & Hc).
    apply bind_Some in Hc as (eb & _ & Hc).
    injection Hc as <-. simpl in Hs. by apply app_eq_nil in Hs as [_ ?].
  - repeat (case_match; try discriminate).
    apply bind_Some in Hc as (batch & _ & Hc).
    apply bind_Some in Hc as (ea & _ & Hc).
    apply bind_Some in Hc as (eb & _ & Hc).
    injection Hc as <-. simpl in Hs. by apply app_eq_nil in Hs as [_ ?].
Qed.

(** C10 ([@=]).  With an operand that is not a Tensor, [a @= x] binds
    [a.data] to [x] itself and allocates no array, so no product is
    computed; with a Tensor operand it binds [a.data] to the matrix
    product of the two value buffers as numpy returns it: a new array, or a
    numpy scalar when the product is 0-dimensional.  In both cases [grad]
    and [_ctx] of [a] stay as they were. *)
Theorem C10_imatmul (self : ref) (h : heap F Op) (t : Tensor F Op)
    (Hself : tensors h !! self = Some t) :
  (∀ o : raw F,
     ∃ h' t', __imatmul__ self (VRaw o) h = Ok h'
              ∧ tensors h' !! self = Some t' ∧ data t' = o
              ∧ arrays h' = arrays h
              ∧ grad t' = grad t ∧ _ctx t' = _ctx t)
  ∧ (∀ r tx l l' a b c,
       tensors h !! r = Some tx →
       data t = RArr l → arrays h !! l = Some a →
       data tx = RArr l' → arrays h !! l' = Some b →
       np_matmul a b = Some c →
       ∃ h' t', __imatmul__ self (VTensor r) h = Ok h'
                ∧ tensors h' !! self = Some t'
                ∧ as_array h' (data t') = Ok c
                ∧ (shape c ≠ [] → data t' = RArr (length (arrays h)))
                ∧ (shape c = [] → ∃ v, data t' = RScal (dt c) v)
                ∧ grad t' = grad t ∧ _ctx t' = _ctx t).
Proof.
  split.
  - intros o. eexists _, _. unfold __imatmul__.
    rewrite (proj2 (get_tensor_Ok _ _ _) Hself). simpl.
    split; [done |]. split; [by eapply set_tensor_lookup |]. done.
  - intros r tx l l' a b c Hr Hd Ha Hdx Hb Hc.
    unfold __imatmul__, matmul.
    rewrite (proj2 (get_tensor_Ok _ _ _) Hself),
            (proj2 (get_tensor_Ok _ _ _) Hr). simpl.
    rewrite Hd, Hdx, (proj2 (get_array_Ok _ _ _) Ha),
            (proj2 (get_array_Ok _ _ _) Hb). simpl. rewrite Hc. simpl.
    unfold np_return, new_array. destruct (shape c) as [| n s] eqn:Hs.
    + destruct (np_matmul_scalar _ _ _ Hc Hs) as [v Hv]. rewrite Hv. simpl.
      eexists _, _. split; [done |].
      split; [by eapply set_tensor_lookup |]. simpl.
      split; [destruct c; simpl in *; by subst |].
      split; [done |]. split; [by eauto | done].
    + simpl. eexists _, _. split; [done |].
      split; [by eapply set_tensor_lookup |]. simpl.
      split; [by rewrite (proj2 (get_array_Ok _ _ _)) by
                 (by apply list_lookup_middle) |].
      split; [done |]. split; [done | done].
Qed.
End InPlace.

(** ** Construction *)

Section Construction.
Context {F : Type} `{Scalar F} {Op : Type}.
Implicit Types (h : heap F Op) (t : Tensor F Op) (a : ndarray F).

Lemma Tensor_init_Ok (o : raw F) rg ctx nm h a :
  as_array h o = Ok a →
  Tensor_init o rg ctx nm h =
    Ok (length (tensors h),
        MkHeap (tensors h ++
                  [MkTensor (RArr (length (arrays h)))
                            (S (length (arrays h))) (Bound ctx) rg nm])
               (arrays h ++ [astype_float32 a;
                             np_zeros_like (astype_float32 a)])).
Proof.
  intros Ha. unfold Tensor_init, new_array, new_tensor. rewrite Ha. simpl.
  rewrite length_app, <- app_assoc. simpl. by rewrite Nat.add_1_r.
Qed.

Lemma Tensor_init_inv (o : raw F) rg ctx nm h r h' :
  Tensor_init o rg ctx nm h = Ok (r, h') →
  ∃ a, as_array h o = Ok a
       ∧ r = length (tensors h)
       ∧ tensors h' = tensors h ++
            [MkTensor (RArr (length (arrays h))) (S (length (arrays h)))
                      (Bound ctx) rg nm]
       ∧ arrays h' = arrays h ++ [astype_float32 a;
                                  np_zeros_like (astype_float32 a)].
Proof.
  intros Hrun. destruct (as_array h o) as [a | | |] eqn:Ha;
    try (unfold Tensor_init in Hrun; rewrite Ha in Hrun; discriminate).
  rewrite (Tensor_init_Ok _ _ _ _ _ _ Ha) in Hrun.
  injection Hrun as <- <-. eauto.
Qed.

Lemma Tensor_init_extends (o : raw F) rg ctx nm h r h' :
  Tensor_init o rg ctx nm h = Ok (r, h') → extends h h'.
Proof.
  intros (a & _ & _ & Hts & Harr)%Tensor_init_inv.
  split; [rewrite Hts | rewrite Harr]; by apply prefix_app_r.
Qed.

(** What [__init__] returns is a leaf with a zero gradient. *)
Lemma Tensor_init_leaf (o : raw F) rg nm h a :
  as_array h o = Ok a →
  ∃ h', Tensor_init o rg None nm h = Ok (length (tensors h), h')
        ∧ zero_leaf h' (length (tensors h)) rg a.
Proof.
  intros Ha. eexists. split; [by apply Tensor_init_Ok |].
  eexists _, _, _. simpl. split; [by apply list_lookup_middle |].
  do 3 (split; [done |]).
  split; [by apply list_lookup_middle |]. do 2 (split; [done |]).
  change (arrays h ++ [astype_float32 a; np_zeros_like (astype_float32 a)])
    with (arrays h ++ [astype_float32 a] ++ [np_zeros_like (astype_float32 a)]).
  rewrite app_assoc. apply list_lookup_middle. rewrite length_app. simpl. lia.
Qed.

Lemma Tensor_of_leaf a (kw : init_kwargs F Op) h :
  kw_context kw = None →
  makes_leaf h (default false (kw_requires_grad kw)) (Tensor_of a kw h).
Proof.
  intros Hctx. unfold Tensor_of, Tensor_new, new_array. rewrite Hctx.
  destruct (Tensor_init_leaf (RArr (length (arrays h)))
              (default false (kw_requires_grad kw)) (default "" (kw_name kw))
              (MkHeap (tensors h) (arrays h ++ [a])) a) as (h' & Hrun & Hleaf).
  { simpl. unfold get_array. simpl. by rewrite list_lookup_middle. }
  exists h', a. by split.
Qed.

(** C8 (leaf identity).  A Tensor made from raw data, directly or by one
    of [zeros], [ones], [empty], [eye], [arange], [uniform], [randn],
    [zeros_like] and [ones_like], without a [context] keyword, is a leaf:
    [_ctx] is None, the value is a single-precision array, [grad] is an
    array of zeros of the shape of the value, and [requires_grad] is False
    unless the keyword says otherwise. *)
Theorem C8_constructed_leaf (kw : init_kwargs F Op) (h : heap F Op)
    (Hctx : kw_context kw = None) :
  let made := makes_leaf h (default false (kw_requires_grad kw)) in
  (∀ o a, as_array h o = Ok a → made (Tensor_new o kw h))
  ∧ (∀ shape, made (zeros shape kw h))
  ∧ (∀ shape, made (ones shape kw h))
  ∧ (∀ shape garbage, made (empty shape garbage kw h))
  ∧ (∀ dim, made (eye dim kw h))
  ∧ (∀ stop start, made (arange stop start kw h))
  ∧ (∀ shape draws, made (uniform shape draws kw h))
  ∧ (∀ shape draws, made (randn shape draws kw h))
  ∧ (∀ r t s, tensors h !! r = Some t → Tensor_shape h t = Ok s →
       made (zeros_like r kw h) ∧ made (ones_like r kw h)).
Proof.
  intros made. subst made.
  split.
  { intros o a Ha. unfold Tensor_new. rewrite Hctx.
    destruct (Tensor_init_leaf o (default false (kw_requires_grad kw))
                (default "" (kw_name kw)) h a Ha) as (h' & Hrun & Hleaf).
    exists h', a. by split. }
  do 7 (split; [intros; by apply Tensor_of_leaf |]).
  intros r t s Hr Hs. split.
  - unfold zeros_like, zeros.
    rewrite (proj2 (get_tensor_Ok _ _ _) Hr). simpl. rewrite Hs. simpl.
    by apply Tensor_of_leaf.
  - unfold ones_like.
    rewrite (proj2 (get_tensor_Ok _ _ _) Hr). simpl. rewrite Hs. simpl.
    by apply Tensor_of_leaf.
Qed.

(** *** comm *)

Lemma extends_refl h : extends h h.
Proof. by split. Qed.

Lemma extends_trans h1 h2 h3 : extends h1 h2 → extends h2 h3 → extends h1 h3.
Proof. intros [??] [??]. split; by etrans. Qed.

Lemma extends_tensors_length h h' :
  extends h h' → length (tensors h) ≤ length (tensors h').
Proof. intros [Hts _]. by apply prefix_length. Qed.

Lemma as_array_extends h h' (o : raw F) a :
  extends h h' → as_array h o = Ok a → as_array h' o = Ok a.
Proof.
  intros [_ Harr]. destruct o as [v | l | d v]; simpl; [done | | done].
  rewrite !get_array_Ok. intros Hl. by eapply prefix_lookup_Some.
Qed.

Lemma zero_leaf_extends h h' r rg a :
  extends h h' → zero_leaf h r rg a → zero_leaf h' r rg a.
Proof.
  intros [Hts Harr] (t & l & d & Hr & Hc & Hrg & Hd & Hl & Hda & Hdt & Hg).
  exists t, l, d. repeat split; try done; by eapply prefix_lookup_Some.
Qed.

Lemma coerced_extends h0 h h1 h2 (v : value F) r :
  length (tensors h0) ≤ length (tensors h) → extends h1 h2 →
  coerced h h1 v r → coerced h0 h2 v r.
Proof.
  intros Hlen Hext. destruct v as [r0 | o]; simpl; [done |].
  intros (Hr & a & Ha & Hleaf). split; [lia |].
  exists a. split; [by eapply as_array_extends | by eapply zero_leaf_extends].
Qed.

(** The list comprehension of [comm] keeps the Tensors among the operands
    and makes a leaf of each of the others, in order. *)
Lemma coerce_spec (ts : list (value F)) h rs h1 :
  coerce ts h = Ok (rs, h1) → extends h h1 ∧ Forall2 (coerced h h1) ts rs.
Proof.
  revert h rs h1. induction ts as [| v ts IH]; intros h rs h1 Hrun.
  - injection Hrun as <- <-. split; [apply extends_refl | constructor].
  - destruct v as [r | o]; simpl in Hrun.
    + apply bind_Ok in Hrun as ([rs' h'] & Hrest & [= <- <-]).
      destruct (IH _ _ _ Hrest) as [Hext Hall].
      split; [done |]. by constructor.
    + apply bind_Ok in Hrun as ([r hm] & Hinit & Hrun).
      apply bind_Ok in Hrun as ([rs' h'] & Hrest & [= <- <-]).
      destruct (IH _ _ _ Hrest) as [Hext Hall].
      pose proof (Tensor_init_extends _ _ _ _ _ _ _ Hinit) as Hext0.
      destruct (Tensor_init_inv _ _ _ _ _ _ _ Hinit) as (a & Ha & -> & _).
      destruct (Tensor_init_leaf o false "" h a Ha) as (hm' & Hrun' & Hleaf).
      rewrite Hinit in Hrun'. injection Hrun' as <-.
      split; [by eapply extends_trans |]. constructor.
      * simpl. split; [done |]. exists a.
        split; [eapply as_array_extends; [by eapply extends_trans | done]
               | by eapply zero_leaf_extends].
      * eapply Forall2_impl; [done |]. intros v r'.
        apply coerced_extends; [by apply extends_tensors_length
                               | apply extends_refl].
Qed.

(** C5 (comm).  [comm] turns every operand that is not a Tensor into a
    new leaf (no creator, zero gradient, not trainable), calls [forward]
    of the operator on the resulting Tensors and returns a new Tensor
    whose [_ctx] is the Context that [forward] returned and whose
    [requires_grad] is True, whatever the flags of the operands. *)
Theorem C5_comm {Kwargs : Type}
    (forward : Op → list ref → Kwargs → heap F Op →
               result (raw F * Context F Op * heap F Op))
    (op : Op) (ts : list (value F)) (kwargs : Kwargs) (h : heap F Op)
    (r : ref) (h' : heap F Op) :
  comm forward op ts kwargs h = Ok (r, h') →
  ∃ operands h1 d c h2 t,
    coerce ts h = Ok (operands, h1)
    ∧ Forall2 (coerced h h1) ts operands
    ∧ forward op operands kwargs h1 = Ok (d, c, h2)
    ∧ r = length (tensors h2)
    ∧ tensors h' !! r = Some t
    ∧ _ctx t = Bound (Some c)
    ∧ requires_grad t = true.
Proof.
  unfold comm. intros Hrun.
  apply bind_Ok in Hrun as ([operands h1] & Hco & Hrun).
  apply bind_Ok in Hrun as ([[d c] h2] & Hfw & Hinit).
  destruct (coerce_spec _ _ _ _ Hco) as [Hext Hall].
  destruct (Tensor_init_inv _ _ _ _ _ _ _ Hinit) as (a & Ha & -> & Hts & _).
  eexists operands, h1, d, c, h2, _.
  do 4 (split; [done |]). rewrite Hts.
  split; [by apply list_lookup_middle | done].
Qed.
End Construction.

(** ** The backward pass *)

Section Backward.
Context {F : Type} `{Scalar F} {Op : Type}.
Variable ctx_backward : Context F Op → loc → heap F Op → result (heap F Op).
Implicit Types (h : heap F Op) (t : Tensor F Op) (a : ndarray F)
               (c : Context F Op) (st : gset nat * list ref).

(** *** One step of [build_topo] *)


Lemma build_topo_deleted fuel h self t st :
  tensors h !! self = Some t → _ctx t = Deleted →
  build_topo (S fuel) h self st = Raise AttributeError.
Proof.
  intros Hself Hctx. simpl.
  by rewrite (proj2 (get_tensor_Ok _ _ _) Hself); simpl; rewrite Hctx.
Qed.

(** A Tensor with a creator is appended last. *)
Lemma build_topo_last fuel h self t c st st' :
  tensors h !! self = Some t → _ctx t = Bound (Some c) →
  build_topo fuel h self st = Ok st' → ∃ topo, st'.2 = topo ++ [self].
Proof.
  intros Hself Hctx. destruct fuel as [| fuel]; [done |]. simpl.
  rewrite (proj2 (get_tensor_Ok _ _ _) Hself); simpl; rewrite Hctx.
  intros Hrun. apply bind_Ok in Hrun as ([v topo] & _ & [= <-]). by exists topo.
Qed.

(** *** Fuel *)

(** In an acyclic heap the recursion from [r] is at most [r + 1] deep:
    with more fuel than that the traversal returns or raises, and more
    fuel does not change a result. *)
Lemma visit_parents_returns rec (tensor r : ref) (ps : list (value F)) st :
  (∀ p st0, p < r → (∃ st1, rec p st0 = Ok st1) ∨ rec p st0 = Raise AttributeError) →
  Forall (λ v, match v with VTensor p => p < r | VRaw _ => True end) ps →
  (∃ st', visit_parents rec tensor ps st = Ok st')
  ∨ visit_parents rec tensor ps st = Raise AttributeError.
Proof.
  intros Hrec Hps. revert st. induction Hps as [| v ps Hv Hps IH]; intros st.
  - left. by eexists.
  - destruct v as [p | o]; simpl; [| apply IH].
    destruct (decide (p ∈ st.1)); simpl; [apply IH |].
    destruct (Hrec p ({[tensor]} ∪ st.1, st.2) Hv) as [[st1 ->] | ->];
      simpl; [apply IH | by right].
Qed.

Lemma build_topo_returns fuel h (r : ref) st :
  acyclic h → r < length (tensors h) → r < fuel →
  (∃ st', build_topo fuel h r st = Ok st')
  ∨ build_topo fuel h r st = Raise AttributeError.
Proof.
  intros Hacy. revert r st.
  induction fuel as [| fuel IH]; intros r st Hr Hfuel; [lia |].
  destruct (lookup_lt_is_Some_2 _ _ Hr) as [t Ht].
  simpl. rewrite (proj2 (get_tensor_Ok _ _ _) Ht). simpl.
  pose proof (Hacy r t Ht) as Hbelow. unfold parents_below in Hbelow.
  destruct (_ctx t) as [| [c |]]; [by right | | left; by eexists].
  destruct (visit_parents_returns (build_topo fuel h) r r (parents c) st)
    as [[[v topo] ->] | ->]; simpl; [| done | left; by eexists | by right].
  intros p st0 Hp. apply IH; lia.
Qed.

Lemma visit_parents_more_fuel (rec rec' : ref → gset nat * list ref →
                                 result (gset nat * list ref))
    (tensor : ref) (ps : list (value F)) st st' :
  (∀ p st0 st1, rec p st0 = Ok st1 → rec' p st0 = Ok st1) →
  visit_parents rec tensor ps st = Ok st' →
  visit_parents rec' tensor ps st = Ok st'.
Proof.
  intros Hrec. revert st. induction ps as [| v ps IH]; intros st Hrun; [done |].
  destruct v as [p | o]; simpl in *; [| by apply IH].
  apply bind_Ok in Hrun as (st1 & Hp & Hrest).
  destruct (decide (p ∈ st.1)).
  - injection Hp as <-. simpl. by apply IH.
  - rewrite (Hrec _ _ _ Hp). simpl. by apply IH.
Qed.

Lemma build_topo_more_fuel fuel h (r : ref) st st' :
  build_topo fuel h r st = Ok st' → build_topo (S fuel) h r st = Ok st'.
Proof.
  revert r st st'. induction fuel as [| fuel IH]; intros r st st' Hrun; [done |].
  remember (S fuel) as fuel1 eqn:Hf. simpl. rewrite Hf in Hrun. simpl in Hrun.
  destruct (get_tensor h r) as [t | | |]; simpl in *; try done.
  destruct (_ctx t) as [| [c |]]; try done.
  apply bind_Ok in Hrun as ([v topo] & Hvisit & Hst).
  rewrite (visit_parents_more_fuel (build_topo fuel h) (build_topo fuel1 h)
             r (parents c) st (v, topo)); [done | | done].
  intros p st0 st1 Hp. subst fuel1. by apply IH.
Qed.

(** *** One step of the loop *)

Lemma del_ctx_inv n h h' :
  del_ctx n h = Ok h' →
  ∃ t, tensors h !! n = Some t ∧ h' = set_tensor n (with_ctx Deleted t) h.
Proof.
  unfold del_ctx. intros Hrun.
  apply bind_Ok in Hrun as (t & Ht%get_tensor_Ok & Hrun).
  exists t. split; [done |]. destruct (_ctx t); [done |]. by injection Hrun.
Qed.

Lemma backward_loop_cons debug n ts h calls h' :
  backward_loop ctx_backward debug (n :: ts) h = (calls, Ok h') →
  ∃ t c h1 h2 calls',
    tensors h !! n = Some t ∧ _ctx t = Bound (Some c)
    ∧ ctx_backward c (grad t) h = Ok h1
    ∧ (if debug then h2 = h1 else del_ctx n h1 = Ok h2)
    ∧ backward_loop ctx_backward debug ts h2 = (calls', Ok h')
    ∧ calls = n :: calls'.
Proof.
  simpl. unfold get_tensor, creator.
  destruct (tensors h !! n) as [t |] eqn:Ht; simpl; [| by intros [=]].
  destruct (_ctx t) as [| [c |]] eqn:Hc; simpl; try by intros [=].
  destruct (ctx_backward c (grad t) h) as [h1 | | |] eqn:Hbk; simpl;
    try by intros [=].
  destruct debug.
  - destruct (backward_loop ctx_backward true ts h1) as [calls' r'] eqn:Hl.
    intros [= <- ->]. by exists t, c, h1, h1, calls'.
  - destruct (del_ctx n h1) as [h2 | | |] eqn:Hdel; try by intros [=].
    destruct (backward_loop ctx_backward false ts h2) as [calls' r'] eqn:Hl.
    intros [= <- ->]. by exists t, c, h1, h2, calls'.
Qed.

(** A successful loop has called every creator of its list, in order. *)
Lemma backward_loop_calls debug ts h calls h' :
  backward_loop ctx_backward debug ts h = (calls, Ok h') → calls = ts.
Proof.
  revert h calls. induction ts as [| n ts IH]; intros h calls Hrun.
  - by injection Hrun as <- _.
  - apply backward_loop_cons in Hrun
      as (t & c & h1 & h2 & calls' & _ & _ & _ & _ & Hrest & ->).
    f_equal. by eapply IH.
Qed.

(** *** The pass as a whole *)

Lemma backward_inv fuel self debug h calls h' :
  backward ctx_backward fuel self debug h = (calls, Ok h') →
  ∃ visited topo t s,
    build_topo fuel h self (∅, []) = Ok (visited, topo)
    ∧ tensors h !! self = Some t
    ∧ Tensor_shape h t = Ok s
    ∧ backward_loop ctx_backward debug (reverse topo)
        (set_tensor self (with_grad (length (arrays h)) t)
           (MkHeap (tensors h) (arrays h ++ [np_ones s Float64])))
      = (calls, Ok h').
Proof.
  unfold backward.
  destruct (build_topo fuel h self (∅, [])) as [[visited topo] | | |] eqn:Hb;
    simpl; try by intros [=].
  unfold get_tensor.
  destruct (tensors h !! self) as [t |] eqn:Ht; simpl; [| by intros [=]].
  destruct (Tensor_shape h t) as [s | | |] eqn:Hs; simpl; try by intros [=].
  intros Hloop. by exists visited, topo, t, s.
Qed.


(** *** Teardown *)

Hypothesis contract : follows_contract ctx_backward.

Lemma contract_lookup c g h h' r t :
  ctx_backward c g h = Ok h' → tensors h !! r = Some t →
  ∃ t', tensors h' !! r = Some t' ∧ data t' = data t ∧ _ctx t' = _ctx t
        ∧ requires_grad t' = requires_grad t.
Proof using contract.
  intros Hbk Hr. destruct (contract _ _ _ _ Hbk) as (_ & Htens & _).
  destruct (Htens r t Hr) as (t' & ? & ? & ? & ? & _). by exists t'.
Qed.

(** A deleted [_ctx] stays deleted until the end of the loop. *)
Lemma backward_loop_deleted debug ts h calls h' r t :
  tensors h !! r = Some t → _ctx t = Deleted →
  backward_loop ctx_backward debug ts h = (calls, Ok h') →
  ∃ t', tensors h' !! r = Some t' ∧ _ctx t' = Deleted.
Proof using contract.
  revert h calls t. induction ts as [| n ts IH]; intros h calls t Hr Hdel Hrun.
  - injection Hrun as _ <-. by exists t.
  - apply backward_loop_cons in Hrun
      as (tn & c & h1 & h2 & calls' & Hn & Hc & Hbk & Hstep & Hrest & _).
    destruct (contract_lookup _ _ _ _ _ _ Hbk Hr) as (t1 & Hr1 & _ & Hc1 & _).
    rewrite Hdel in Hc1.
    destruct debug.
    + subst h2. by eapply IH.
    + apply del_ctx_inv in Hstep as (tn1 & Hn1 & ->).
      destruct (set_tensor_lookup_Some h1 n (with_ctx Deleted tn1) r t1 Hr1)
        as (t2 & Hr2 & Heq & Hne).
      eapply (IH _ _ t2); [done | | done].
      destruct (decide (r = n)) as [-> | Hrn];
        [by rewrite (Heq eq_refl) | by rewrite (Hne Hrn)].
Qed.

(** Without [debug] every processed Tensor ends with its [_ctx] deleted. *)
Lemma backward_loop_teardown ts h calls h' :
  backward_loop ctx_backward false ts h = (calls, Ok h') →
  ∀ r, r ∈ ts → ∃ t', tensors h' !! r = Some t' ∧ _ctx t' = Deleted.
Proof using contract.
  revert h calls. induction ts as [| n ts IH]; intros h calls Hrun r Hin.
  - by apply elem_of_nil in Hin.
  - apply backward_loop_cons in Hrun
      as (tn & c & h1 & h2 & calls' & Hn & Hc & Hbk & Hstep & Hrest & _).
    apply elem_of_cons in Hin as [-> | Hin]; [| by eapply IH].
    apply del_ctx_inv in Hstep as (tn1 & Hn1 & ->).
    eapply (backward_loop_deleted false ts
              (set_tensor n (with_ctx Deleted tn1) h1)); [| | exact Hrest].
    + by eapply set_tensor_lookup.
    + done.
Qed.

(** C7 (a torn-down graph).  When a pass without [debug] has returned,
    the [_ctx] of every processed Tensor is deleted; if the root had a
    creator, any later [backward] on it raises AttributeError before the
    traversal takes a step, and no operator is called. *)
Theorem C7_second_backward_raises (fuel : nat) (self : ref)
    (h h' : heap F Op) (calls : list ref) (t : Tensor F Op) (c : Context F Op) :
  tensors h !! self = Some t → _ctx t = Bound (Some c) →
  backward ctx_backward fuel self false h = (calls, Ok h') →
  (∀ r, r ∈ calls → ∃ t', tensors h' !! r = Some t' ∧ _ctx t' = Deleted)
  ∧ ∀ fuel' debug, fuel' ≠ 0 →
      backward ctx_backward fuel' self debug h' = ([], Raise AttributeError).
Proof using contract.
  intros Hself Hctx Hrun.
  apply backward_inv in Hrun as (visited & topo & t0 & s & Hb & Ht0 & _ & Hloop).
  pose proof (backward_loop_calls _ _ _ _ _ Hloop) as ->.
  pose proof (backward_loop_teardown _ _ _ _ Hloop) as Hdown.
  split; [done |].
  destruct (build_topo_last _ _ _ _ _ _ _ Hself Hctx Hb) as (topo' & Htopo).
  simpl in Htopo. destruct (Hdown self) as (t' & Hself' & Hdel).
  { apply elem_of_reverse. rewrite Htopo. apply elem_of_app. right.
    by apply list_elem_of_singleton. }
  intros fuel' debug Hfuel. destruct fuel' as [| fuel']; [done |].
  unfold backward. by rewrite (build_topo_deleted _ _ _ _ _ Hself' Hdel).
Qed.

(** *** The seed of the chain rule *)







End Backward.

(** ** The shape of the gradient *)

Section Shapes.
Context {F : Type} `{Scalar F} {Op Kwargs : Type}.
Variable forward :
  Op → list ref → Kwargs → heap F Op → result (raw F * Context F Op * heap F Op).
Variable ctx_backward : Context F Op → loc → heap F Op → result (heap F Op).
Implicit Types (h : heap F Op) (t : Tensor F Op) (a : ndarray F).

Lemma np_inplace_shape op L a y a' :
  np_inplace op L a y = Some a' → shape a' = shape a.
Proof.
  unfold np_inplace. destruct (broadcast_to (shape a) y); simpl; [| done].
  by intros [= <-].
Qed.

(** [shape] only reads [data] and the shapes of arrays. *)
Lemma Tensor_shape_kept h h' t t' s :
  data t' = data t → shapes_kept h h' →
  Tensor_shape h t = Ok s → Tensor_shape h' t' = Ok s.
Proof.
  intros Hd Harr. rewrite !Tensor_shape_Ok, Hd.
  intros [(l & a & Hl & Ha & ->) | Hsc]; [| by right].
  destruct (Harr _ _ Ha) as (a' & Ha' & Hsa). left. exists l, a'.
  by rewrite Hsa.
Qed.

Lemma keeps_shapes_refl h : keeps_shapes h h.
Proof. by intros r. Qed.

Lemma keeps_shapes_trans h1 h2 h3 :
  keeps_shapes h1 h2 → keeps_shapes h2 h3 → keeps_shapes h1 h3.
Proof. intros H12 H23 r Hr. by apply H23, H12. Qed.

(** The predicate only reads [data], [grad] and the shapes of arrays. *)
Lemma same_shape_transport h h' r t t' :
  tensors h !! r = Some t → tensors h' !! r = Some t' →
  data t' = data t → grad t' = grad t →
  shapes_kept h h' → same_shape h r → same_shape h' r.
Proof.
  intros Hr Hr' Hd Hg Harr (t0 & s & g & Hr0 & Hs & Hga & Hshape).
  simplify_eq.
  destruct (Harr _ _ Hga) as (g' & Hg' & Hsg).
  exists t', (shape g), g'. rewrite Hg. split; [done |].
  split; [by eapply Tensor_shape_kept |]. done.
Qed.

Lemma extends_shapes_kept h h' : extends h h' → shapes_kept h h'.
Proof.
  intros [_ Harr] l a Hl. exists a. split; [| done].
  by eapply prefix_lookup_Some.
Qed.

Lemma extends_keeps_shapes h h' : extends h h' → keeps_shapes h h'.
Proof.
  intros Hext r Hr. pose proof Hr as (t & _ & _ & Ht & _).
  eapply (same_shape_transport h h' r t t); try done.
  - destruct Hext as [Hts _]. by eapply prefix_lookup_Some.
  - by apply extends_shapes_kept.
Qed.

(** *** Construction *)

Lemma Tensor_init_same_shape (o : raw F) rg ctx nm h r h' :
  Tensor_init o rg ctx nm h = Ok (r, h') →
  same_shape h' r ∧ keeps_shapes h h'.
Proof.
  intros Hrun. split; [| by eapply extends_keeps_shapes, Tensor_init_extends].
  apply Tensor_init_inv in Hrun as (a & _ & -> & Hts & Harr).
  eexists _, (shape a), (np_zeros_like (astype_float32 a)).
  rewrite Hts, Harr. split; [by apply list_lookup_middle |].
  split.
  { apply (Tensor_shape_array _ _ (length (arrays h)) (astype_float32 a));
      [done |]. rewrite Harr. by apply list_lookup_middle. }
  simpl. split; [| done].
  change (arrays h ++ [astype_float32 a; np_zeros_like (astype_float32 a)])
    with (arrays h ++ [astype_float32 a] ++ [np_zeros_like (astype_float32 a)]).
  rewrite app_assoc. apply list_lookup_middle. rewrite length_app. simpl. lia.
Qed.

Lemma Tensor_of_same_shape a (kw : init_kwargs F Op) h r h' :
  Tensor_of a kw h = Ok (r, h') → same_shape h' r ∧ keeps_shapes h h'.
Proof.
  unfold Tensor_of, Tensor_new, new_array. intros Hrun.
  destruct (Tensor_init_same_shape _ _ _ _ _ _ _ Hrun) as [Hnew Hkeep].
  split; [done |]. eapply keeps_shapes_trans; [| done].
  apply extends_keeps_shapes. split; simpl; [done | by apply prefix_app_r].
Qed.

(** *** In-place arithmetic *)

Lemma inplace_keeps_shapes op self (x : value F) h h' r :
  inplace op self x h = Ok h' →
  (r = self → array_valued h self) →
  same_shape h r → same_shape h' r.
Proof.
  unfold inplace. intros Hrun Harray Hr.
  apply bind_Ok in Hrun as (t & Ht%get_tensor_Ok & Hrun).
  apply bind_Ok in Hrun as (y & _ & Hrun).
  apply bind_Ok in Hrun as ([d h1] & Haug & [= <-]).
  pose proof Hr as (t0 & _ & _ & Ht0 & _).
  apply augmented_inv in Haug
    as [(l & a & b & a' & Hd & Ha & _ & Hnp & -> & ->) | (Hnot & Hts & Hpre & _)].
  - (* the array is updated where it is *)
    apply np_inplace_shape in Hnp.
    destruct (set_tensor_lookup_Some (set_array l a' h) self
                (with_data (RArr l) t) r t0 Ht0) as (t' & Ht' & Heq & Hne).
    eapply (same_shape_transport h _ r t0 t'); try done.
    + destruct (decide (r = self)) as [-> | Hrs].
      * rewrite (Heq eq_refl). simpl. by simplify_eq.
      * by rewrite (Hne Hrs).
    + destruct (decide (r = self)) as [-> | Hrs].
      * rewrite (Heq eq_refl). simpl. by simplify_eq.
      * by rewrite (Hne Hrs).
    + intros l0 a0 Hl0. simpl. destruct (decide (l = l0)) as [<- | Hne'].
      * exists a'. rewrite list_lookup_insert_eq by (by eapply lookup_lt_Some).
        split; [done |]. congruence.
      * exists a0. by rewrite list_lookup_insert_ne.
  - (* the name is bound to a new object: [self] held no array *)
    destruct (decide (r = self)) as [-> | Hrs].
    { destruct (Harray eq_refl) as (ts & l & Hts' & Hl).
      assert (ts = t) as -> by congruence. by destruct (Hnot l). }
    eapply (same_shape_transport h _ r t0 t0); try done.
    + simpl. rewrite list_lookup_insert_ne by done. by rewrite Hts.
    + intros l0 a0 Hl0. exists a0. split; [| done]. simpl.
      by eapply prefix_lookup_Some.
Qed.

(** *** The flag *)

Lemma set_flag_keeps_shapes b self t h :
  tensors h !! self = Some t →
  keeps_shapes h (set_tensor self (with_requires_grad b t) h).
Proof.
  intros Ht r Hr. pose proof Hr as (t0 & _ & _ & Ht0 & _).
  destruct (set_tensor_lookup_Some h self (with_requires_grad b t) r t0 Ht0)
    as (t' & Ht' & Heq & Hne).
  assert (data t' = data t0 ∧ grad t' = grad t0) as [Hd Hg].
  { destruct (decide (r = self)) as [-> | Hrs].
    - rewrite (Heq eq_refl). simpl. by simplify_eq.
    - by rewrite (Hne Hrs). }
  eapply (same_shape_transport h _ r t0 t'); try done.
  intros l a Hl. by exists a.
Qed.

(** *** comm *)

Hypothesis forward_ok : forward_keeps_shapes forward.

Lemma comm_same_shape op (ts : list (value F)) kw h r h' :
  comm forward op ts kw h = Ok (r, h') →
  same_shape h' r ∧ keeps_shapes h h'.
Proof using forward_ok.
  unfold comm. intros Hrun.
  apply bind_Ok in Hrun as ([operands h1] & Hco & Hrun).
  apply bind_Ok in Hrun as ([[d c] h2] & Hfw & Hinit).
  destruct (coerce_spec _ _ _ _ Hco) as [Hext _].
  destruct (Tensor_init_same_shape _ _ _ _ _ _ _ Hinit) as [Hnew Hkeep].
  split; [done |].
  eapply keeps_shapes_trans; [by apply extends_keeps_shapes |].
  eapply keeps_shapes_trans; [by eapply forward_ok | done].
Qed.

(** *** backward *)

Hypothesis backward_ok : backward_keeps_shapes ctx_backward.

Lemma del_ctx_keeps_shapes n h h' : del_ctx n h = Ok h' → keeps_shapes h h'.
Proof.
  intros (t & Ht & ->)%del_ctx_inv r Hr.
  pose proof Hr as (t0 & _ & _ & Ht0 & _).
  destruct (set_tensor_lookup_Some h n (with_ctx Deleted t) r t0 Ht0)
    as (t' & Ht' & Heq & Hne).
  assert (data t' = data t0 ∧ grad t' = grad t0) as [Hd Hg].
  { destruct (decide (r = n)) as [-> | Hrn].
    - rewrite (Heq eq_refl). simpl. by simplify_eq.
    - by rewrite (Hne Hrn). }
  eapply (same_shape_transport h _ r t0 t'); try done.
  intros l a Hl. by exists a.
Qed.

Lemma backward_loop_keeps_shapes debug ts h calls h' :
  backward_loop ctx_backward debug ts h = (calls, Ok h') → keeps_shapes h h'.
Proof using backward_ok.
  revert h calls. induction ts as [| n ts IH]; intros h calls Hrun.
  - injection Hrun as _ <-. apply keeps_shapes_refl.
  - apply backward_loop_cons in Hrun
      as (t & c & h1 & h2 & calls' & _ & _ & Hbk & Hstep & Hrest & _).
    eapply keeps_shapes_trans; [by eapply backward_ok |].
    eapply keeps_shapes_trans; [| by eapply IH].
    destruct debug; [subst h2; apply keeps_shapes_refl
                    | by eapply del_ctx_keeps_shapes].
Qed.

(** [self.grad = np.ones(self.shape)] establishes the predicate for the
    root and keeps it for the others. *)
Lemma seed_same_shape h self t s :
  tensors h !! self = Some t → Tensor_shape h t = Ok s →
  let h1 := set_tensor self (with_grad (length (arrays h)) t)
              (MkHeap (tensors h) (arrays h ++ [np_ones s Float64])) in
  same_shape h1 self ∧ keeps_shapes h h1.
Proof.
  intros Hself Hs h1.
  assert (Hkept : shapes_kept h h1).
  { intros l b Hl. exists b. split; [| done]. simpl. by apply lookup_app_l_Some. }
  assert (Hroot : same_shape h1 self).
  { exists (with_grad (length (arrays h)) t), s, (np_ones s Float64).
    split; [by eapply set_tensor_lookup |].
    split; [by eapply Tensor_shape_kept |]. simpl.
    split; [by apply list_lookup_middle | done]. }
  split; [done |]. intros r Hr.
  destruct (decide (r = self)) as [-> | Hne]; [done |].
  pose proof Hr as (t0 & _ & _ & Ht0 & _).
  eapply (same_shape_transport h h1 r t0 t0); try done.
  subst h1. by rewrite set_tensor_lookup_ne.
Qed.

Lemma backward_same_shape fuel self debug h calls h' :
  backward ctx_backward fuel self debug h = (calls, Ok h') →
  same_shape h' self ∧ keeps_shapes h h'.
Proof using backward_ok.
  intros Hrun. apply backward_inv in Hrun
    as (visited & topo & t & s & _ & Ht & Hs & Hloop).
  destruct (seed_same_shape h self t s Ht Hs) as [Hroot Hkeep].
  pose proof (backward_loop_keeps_shapes _ _ _ _ _ Hloop) as Hkeep'.
  split; [by apply Hkeep' |]. by eapply keeps_shapes_trans.
Qed.

(** C4 (grad is shaped like the value).  The predicate holds of every
    Tensor that [__init__], a creation helper or [comm] returns and of the
    root after [backward]; whoever satisfies it still does after a
    construction, [comm], a change of the flag, or [backward], the
    operators keeping it on their side, and after one of [+=], [-=], [*=],
    [**=], [/=], provided the value of the Tensor that is assigned to is
    an array: the array is then updated where it is.  [@=] is left out: it
    rebinds the value to a product that has a shape of its own, or to the
    operand. *)
Theorem C4_shape_invariant (h h' : heap F Op) :
  (∀ o rg ctx nm r,
     Tensor_init o rg ctx nm h = Ok (r, h') →
     same_shape h' r ∧ keeps_shapes h h')
  ∧ (∀ a kw r,
       Tensor_of a kw h = Ok (r, h') → same_shape h' r ∧ keeps_shapes h h')
  ∧ (∀ op ts kw r,
       comm forward op ts kw h = Ok (r, h') →
       same_shape h' r ∧ keeps_shapes h h')
  ∧ (∀ op self x r,
       inplace op self x h = Ok h' →
       (r = self → array_valued h self) →
       same_shape h r → same_shape h' r)
  ∧ (∀ self, no_grad self h = Ok h' ∨ requires_grad_ self h = Ok h' →
       keeps_shapes h h')
  ∧ (∀ fuel self debug calls,
       backward ctx_backward fuel self debug h = (calls, Ok h') →
       same_shape h' self ∧ keeps_shapes h h').
Proof using forward_ok backward_ok.
  split; [intros; by eapply Tensor_init_same_shape |].
  split; [intros; by eapply Tensor_of_same_shape |].
  split; [intros; by eapply comm_same_shape |].
  split; [intros; by eapply inplace_keeps_shapes |].
  split; [| intros; by eapply backward_same_shape].
  intros self [Hrun | Hrun];
    apply bind_Ok in Hrun as (t & Ht%get_tensor_Ok & [= <-]);
    by apply set_flag_keeps_shapes.
Qed.
End Shapes.

(** ** The summing operator follows the contracts *)

Section SumFacts.
Context {F : Type} `{Scalar F}.
Implicit Types (h : heap F sum_op) (a : ndarray F).

(** [accumulate] writes into the gradients of the Tensors among [ps] and
    nowhere else; the arrays keep their shapes. *)
Lemma accumulate_frame (ps : list (value F)) partial h h' :
  accumulate ps partial h = Ok h' →
  tensors h' = tensors h
  ∧ shapes_kept h h'
  ∧ ∀ l a, arrays h !! l = Some a →
      (∀ r t, VTensor r ∈ ps → tensors h !! r = Some t → grad t ≠ l) →
      arrays h' !! l = Some a.
Proof.
  revert h. induction ps as [| v ps IH]; intros h Hrun.
  - injection Hrun as <-. split; [done |]. split; [| done].
    intros l a Hl. by exists a.
  - destruct v as [p | o]; simpl in Hrun.
    + apply bind_Ok in Hrun as (t & Ht%get_tensor_Ok & Hrun).
      apply bind_Ok in Hrun as (g & Hg%get_array_Ok & Hrun).
      apply bind_Ok in Hrun as (d & _ & Hrun).
      apply bind_Ok in Hrun as (g' & Hnp & Hrun).
      apply orelse_Ok in Hnp; [| done]. apply np_inplace_shape in Hnp.
      destruct (IH _ Hrun) as (Hts & Hshapes & Harr). simpl in *.
      split; [done |]. split.
      * intros l a Hl. destruct (decide (grad t = l)) as [<- | Hne].
        -- destruct (Hshapes (grad t) g') as (a' & Ha' & Hsa').
           { simpl. apply list_lookup_insert_eq. by eapply lookup_lt_Some. }
           exists a'. split; [done |]. congruence.
        -- apply Hshapes. simpl. by rewrite list_lookup_insert_ne.
      * intros l a Hl Hfree. apply Harr.
        -- rewrite list_lookup_insert_ne; [done |].
           apply (Hfree p t); [by left | done].
        -- intros r t0 Hin Hr. apply (Hfree r t0); [by right | done].
    + destruct (IH _ Hrun) as (Hts & Hshapes & Harr).
      split; [done |]. split; [done |].
      intros l a Hl Hfree. apply Harr; [done |].
      intros r t0 Hin Hr. apply (Hfree r t0); [by right | done].
Qed.

Lemma sum_backward_contract : follows_contract (@sum_backward F _).
Proof.
  intros c g h h' Hrun. unfold sum_backward in Hrun.
  destruct (accumulate_frame _ _ _ _ Hrun) as (Hts & _ & Harr).
  split; [by rewrite Hts |]. split; [| done].
  intros r t Hr. exists t. rewrite Hts. repeat split; auto.
Qed.

Lemma sum_backward_keeps_shapes : backward_keeps_shapes (@sum_backward F _).
Proof.
  intros c g h h' Hrun r Hr. unfold sum_backward in Hrun.
  destruct (accumulate_frame _ _ _ _ Hrun) as (Hts & Hshapes & _).
  pose proof Hr as (t & _ & _ & Ht & _).
  eapply (same_shape_transport h h' r t t); try done. by rewrite Hts.
Qed.

Lemma sum_forward_keeps_shapes : forward_keeps_shapes (@sum_forward F _).
Proof.
  intros op rs kw h d c h' Hrun. unfold sum_forward, new_array in Hrun.
  destruct rs as [| r rs]; [done |].
  apply bind_Ok in Hrun as (t & _ & Hrun).
  apply bind_Ok in Hrun as (a & _ & Hrun).
  apply bind_Ok in Hrun as (out & _ & [= <- <- <-]).
  apply extends_keeps_shapes. split; simpl; [done | by apply prefix_app_r].
Qed.
End SumFacts.

(** ** The theorems on concrete heaps *)

(** An operator that does not define [backward]: the pass seeds the root,
    calls the creator of the root and ends there with the exception of the
    base class. *)
Example backward_not_implemented :
  backward Context_backward 5 4 false chain_heap
  = ([4], Raise NotImplementedError).
Proof. vm_compute. reflexivity. Qed.

(** The Tensors of a heap given by an explicit list, one at a time. *)
Ltac each_tensor r t Hr :=
  repeat (destruct r as [| r]; [simpl in Hr; injection Hr as <- |]);
  try (simpl in Hr; discriminate Hr).

Lemma chain_heap_acyclic : acyclic chain_heap.
Proof.
  intros r t Hr. vm_compute in Hr. each_tensor r t Hr;
    unfold parents_below; simpl; repeat constructor.
Qed.



(** C4, as the specification has it, fails on [a @= b] for a 2x3 matrix [a]
    and a 3x4 matrix [b]: before, [a.grad] has the shape of [a.data];
    after, the value is 2x4 and the gradient still 2x3. *)
Lemma C4_imatmul_changes_shape :
  same_shape matrices 0
  ∧ ∃ h', __imatmul__ 0 (VTensor 1) matrices = Ok h' ∧ ¬ same_shape h' 0.
Proof.
  split.
  - eexists _, _, _. repeat split; vm_compute; reflexivity.
  - eexists. split; [vm_compute; reflexivity |].
    intros (t & s & g & Ht & Hs & Hg & Hshape).
    vm_compute in Ht. injection Ht as <-.
    vm_compute in Hs. injection Hs as <-.
    vm_compute in Hg. injection Hg as <-.
    discriminate Hshape.
Qed.

(** After [v @= w] on two vectors the value of [v] is a numpy scalar, of
    shape [()]; [v.backward()] gives it a grad of that shape; [v += w]
    then binds the value to a new array of shape (3,) and the grad stays
    as it is. *)
Example scalar_value_is_rebound :
  ∃ h1 h2 h3,
    __imatmul__ 0 (VTensor 1) vectors = Ok h1
    ∧ backward sum_backward 1 0 false h1 = ([], Ok h2)
    ∧ same_shape h2 0
    ∧ __iadd__ 0 (VTensor 1) h2 = Ok h3
    ∧ ¬ same_shape h3 0.
Proof.
  eexists _, _, _. split; [vm_compute; reflexivity |].
  split; [vm_compute; reflexivity |]. split.
  { eexists _, _, _. repeat split; vm_compute; reflexivity. }
  split; [vm_compute; reflexivity |].
  intros (t & s & g & Ht & Hs & Hg & Hshape).
  vm_compute in Ht. injection Ht as <-.
  vm_compute in Hs. injection Hs as <-.
  vm_compute in Hg. injection Hg as <-.
  discriminate Hshape.
Qed.





(** [d.backward()] on the graph without sharing, with the summing operator. *)
Lemma C4_shape_invariant_witness :
  backward sum_backward 5 4 false chain_heap = ([4; 2], Ok chain_done)
  ∧ same_shape chain_done 4 ∧ keeps_shapes chain_heap chain_done.
Proof.
  assert (Hrun : backward sum_backward 5 4 false chain_heap
                 = ([4; 2], Ok chain_done)) by (vm_compute; reflexivity).
  split; [exact Hrun |].
  destruct (C4_shape_invariant (Kwargs := unit) sum_forward sum_backward
              sum_forward_keeps_shapes sum_backward_keeps_shapes
              chain_heap chain_done) as (_ & _ & _ & _ & _ & Hback).
  exact (Hback 5 4 false [4; 2] Hrun).
Defined.

(** [a + 5.0] for the 2x3 matrix [a]. *)
Lemma C5_comm_witness :
  ∃ r h', comm sum_forward Sum [VTensor 0; VRaw (RNum 5%Z)] () matrices = Ok (r, h')
          ∧ ∃ t c, tensors h' !! r = Some t ∧ _ctx t = Bound (Some c)
                   ∧ requires_grad t = true.
Proof.
  eexists _, _. split; [vm_compute; reflexivity |].
  destruct (C5_comm sum_forward Sum [VTensor 0; VRaw (RNum 5%Z)] () matrices _ _
              ltac:(vm_compute; reflexivity))
    as (operands & h1 & d & c & h2 & t & _ & _ & _ & _ & Ht & Hc & Hrg).
  by exists t, c.
Defined.


Lemma C7_second_backward_raises_witness :
  (∀ r, r ∈ [4; 2] →
     ∃ t', tensors chain_done !! r = Some t' ∧ _ctx t' = Deleted)
  ∧ ∀ fuel' debug, fuel' ≠ 0 →
      backward sum_backward fuel' 4 debug chain_done = ([], Raise AttributeError).
Proof.
  eapply (C7_second_backward_raises sum_backward sum_backward_contract
            5 4 chain_heap chain_done [4; 2]).
  - vm_compute. reflexivity.
  - reflexivity.
  - vm_compute. reflexivity.
Defined.

(** [Tensor.zeros(2, 3)] on an empty heap. *)
Lemma C8_constructed_leaf_witness :
  kw_context no_kwargs = None
  ∧ makes_leaf empty_heap false (zeros [2; 3] no_kwargs empty_heap).
Proof.
  split; [reflexivity |].
  exact (proj1 (proj2 (C8_constructed_leaf no_kwargs empty_heap eq_refl)) [2; 3]).
Defined.


(** [a @= 7.0] and [a @= b] on the two matrices. *)
Lemma C10_imatmul_witness :
  (∃ h' t', __imatmul__ 0 (VRaw (RNum 7%Z)) matrices = Ok h'
            ∧ tensors h' !! 0 = Some t' ∧ data t' = RNum 7%Z
            ∧ arrays h' = arrays matrices)
  ∧ (∃ h' t', __imatmul__ 0 (VTensor 1) matrices = Ok h'
              ∧ tensors h' !! 0 = Some t'
              ∧ data t' = RArr (length (arrays matrices))
              ∧ as_array h' (data t')
                = Ok (NDArray [2; 4] Float32 (replicate 8 3%Z)))
  ∧ (∃ h' t', __imatmul__ 0 (VTensor 1) vectors = Ok h'
              ∧ tensors h' !! 0 = Some t'
              ∧ data t' = RScal Float32 3%Z).
Proof.
  destruct (C10_imatmul 0 matrices
              (MkTensor (RArr 1) 2 (Bound None) false "")
              ltac:(vm_compute; reflexivity)) as [Hraw Hprod].
  split; [| split].
  - destruct (Hraw (RNum 7%Z)) as (h' & t' & Hrun & Ht & Hd & Harr & _).
    by exists h', t'.
  - destruct (Hprod 1 (MkTensor (RArr 4) 5 (Bound None) false "") 1 4
                (NDArray [2; 3] Float32 (replicate 6 1%Z))
                (NDArray [3; 4] Float32 (replicate 12 1%Z))
                (NDArray [2; 4] Float32 (replicate 8 3%Z))
                ltac:(vm_compute; reflexivity) eq_refl
                ltac:(vm_compute; reflexivity) eq_refl
                ltac:(vm_compute; reflexivity)
                ltac:(vm_compute; reflexivity))
      as (h' & t' & Hrun & Ht & Hc & Harr & _).
    exists h', t'. split; [exact Hrun |]. split; [exact Ht |].
    split; [| exact Hc]. apply Harr. discriminate.
  - destruct (C10_imatmul 0 vectors
                (MkTensor (RArr 1) 2 (Bound None) false "")
                ltac:(vm_compute; reflexivity)) as [_ Hdot].
    destruct (Hdot 1 (MkTensor (RArr 4) 5 (Bound None) false "") 1 4
                (NDArray [3] Float32 (replicate 3 1%Z))
                (NDArray [3] Float32 (replicate 3 1%Z))
                (NDArray [] Float32 [3%Z])
                ltac:(vm_compute; reflexivity) eq_refl
                ltac:(vm_compute; reflexivity) eq_refl
                ltac:(vm_compute; reflexivity)
                ltac:(vm_compute; reflexivity))
      as (h' & t' & Hrun & Ht & Hc & _ & Hscal & _).
    exists h', t'. split; [exact Hrun |]. split; [exact Ht |].
    destruct (Hscal eq_refl) as [v Hv]. rewrite Hv in Hc |- *.
    simpl in Hc. by injection Hc as ->.
Defined.

(** * Further properties *)

(** ** What the traversal reads *)

Section Traversal.
Context {F : Type} `{Scalar F} {Op : Type}.
Implicit Types (h : heap F Op) (t : Tensor F Op) (c : Context F Op)
               (st : gset nat * list ref).

Lemma same_slots_refl h : same_slots h h.
Proof. by intros r. Qed.

Lemma same_slots_sym h h' : same_slots h h' → same_slots h' h.
Proof. by intros Hs r. Qed.

Lemma same_slots_trans h1 h2 h3 :
  same_slots h1 h2 → same_slots h2 h3 → same_slots h1 h3.
Proof. intros H12 H23 r. by rewrite H12. Qed.

Lemma same_tensors_same_slots h h' : tensors h' = tensors h → same_slots h h'.
Proof. intros Hts r. by rewrite Hts. Qed.

Lemma set_tensor_same_slots self t t' h :
  tensors h !! self = Some t → _ctx t' = _ctx t →
  same_slots h (set_tensor self t' h).
Proof.
  intros Hself Hctx r. destruct (decide (r = self)) as [-> | Hne].
  - erewrite set_tensor_lookup by done. rewrite Hself. simpl. by rewrite Hctx.
  - by rewrite set_tensor_lookup_ne.
Qed.

Lemma same_slots_has_creator h h' r :
  same_slots h h' → has_creator h r → has_creator h' r.
Proof.
  intros Hs (t & c & Hr & Hc). pose proof (Hs r) as Hsr. rewrite Hr in Hsr.
  destruct (tensors h' !! r) as [t' |] eqn:Hr'; simpl in Hsr; [| discriminate].
  injection Hsr as Hsr. exists t', c. split; [done | congruence].
Qed.

Lemma visit_parents_ext (rec rec' : ref → gset nat * list ref →
                           result (gset nat * list ref))
    (tensor : ref) (ps : list (value F)) st :
  (∀ p st0, rec p st0 = rec' p st0) →
  visit_parents rec tensor ps st = visit_parents rec' tensor ps st.
Proof.
  intros Hrec. revert st. induction ps as [| v ps IH]; intros st; [done |].
  destruct v as [p | o]; simpl; [| apply IH].
  destruct (decide (p ∈ st.1)); simpl; [apply IH |].
  rewrite Hrec. destruct (rec' p _); simpl; auto.
Qed.

(** [build_topo] reads the heap through the slots [_ctx] only. *)
Lemma build_topo_ext fuel h h' (r : ref) st :
  same_slots h h' → build_topo fuel h r st = build_topo fuel h' r st.
Proof.
  intros Hs. revert r st. induction fuel as [| fuel IH]; intros r st; [done |].
  simpl. unfold get_tensor. pose proof (Hs r) as Hr.
  destruct (tensors h !! r) as [t |], (tensors h' !! r) as [t' |];
    simpl in *; try done.
  injection Hr as Hr. rewrite Hr.
  destruct (_ctx t') as [| [c |]]; try done.
  by rewrite (visit_parents_ext (build_topo fuel h) (build_topo fuel h')).
Qed.

Lemma apply_inplace_same_slots (o : inplace_op) (self : ref) (x : value F) h h' :
  apply_inplace o self x h = Ok h' → same_slots h h'.
Proof.
  assert (Harith : ∀ op, inplace op self x h = Ok h' → same_slots h h').
  { intros op Hrun. unfold inplace in Hrun.
    apply bind_Ok in Hrun as (t & Ht%get_tensor_Ok & Hrun).
    apply bind_Ok in Hrun as (y & _ & Hrun).
    apply bind_Ok in Hrun as ([d h1] & Haug & [= <-]).
    destruct (augmented_frame _ _ _ _ _ _ Haug) as [Hts _].
    eapply same_slots_trans; [by apply same_tensors_same_slots |].
    apply (set_tensor_same_slots self t); [by rewrite Hts | done]. }
  destruct o as [[] |]; simpl; try apply Harith.
  unfold __imatmul__. destruct x as [r | o]; intros Hrun.
  - apply bind_Ok in Hrun as (t & Ht%get_tensor_Ok & Hrun).
    apply bind_Ok in Hrun as (tx & _ & Hrun).
    apply bind_Ok in Hrun as ([d h1] & Hmm & [= <-]).
    destruct (matmul_frame _ _ _ _ _ Hmm) as [Hts _].
    eapply same_slots_trans; [by apply same_tensors_same_slots |].
    apply (set_tensor_same_slots self t); [by rewrite Hts | done].
  - apply bind_Ok in Hrun as (t & Ht%get_tensor_Ok & [= <-]).
    by apply (set_tensor_same_slots self t).
Qed.

(** X1.  An in-place operator and a change of the flag leave the graph
    alone: whatever [build_topo] returned before, from any Tensor and in
    any state, it returns after. *)
Theorem X1_traversal_ignores_updates (h h' : heap F Op) :
  (∃ o self x, apply_inplace o self x h = Ok h')
  ∨ (∃ self, no_grad self h = Ok h')
  ∨ (∃ self, requires_grad_ self h = Ok h') →
  ∀ fuel r st, build_topo fuel h' r st = build_topo fuel h r st.
Proof.
  intros Hstep fuel r st. symmetry. apply build_topo_ext.
  destruct Hstep as [(o & self & x & Hrun) | [(self & Hrun) | (self & Hrun)]].
  - by eapply apply_inplace_same_slots.
  - apply bind_Ok in Hrun as (t & Ht%get_tensor_Ok & [= <-]).
    by apply (set_tensor_same_slots self t).
  - apply bind_Ok in Hrun as (t & Ht%get_tensor_Ok & [= <-]).
    by apply (set_tensor_same_slots self t).
Qed.

(** *** What the traversal lists *)

Lemma visit_parents_creators rec (tensor : ref) (ps : list (value F)) h st st' :
  (∀ p st0 st1, rec p st0 = Ok st1 →
     ∀ x, x ∈ st1.2 → x ∈ st0.2 ∨ has_creator h x) →
  visit_parents rec tensor ps st = Ok st' →
  ∀ x, x ∈ st'.2 → x ∈ st.2 ∨ has_creator h x.
Proof.
  intros Hrec. revert st. induction ps as [| v ps IH]; intros st Hrun.
  - injection Hrun as <-. auto.
  - destruct v as [p | o]; simpl in Hrun; [| by apply IH].
    apply bind_Ok in Hrun as (st1 & Hp & Hrest).
    intros x Hx. destruct (IH _ Hrest x Hx) as [Hx1 | ?]; [| by right].
    destruct (decide (p ∈ st.1)).
    + injection Hp as <-. by left.
    + by apply (Hrec p _ _ Hp x).
Qed.

(** Only Tensors with a creator are appended. *)
Lemma build_topo_creators fuel h (r : ref) st st' :
  build_topo fuel h r st = Ok st' →
  ∀ x, x ∈ st'.2 → x ∈ st.2 ∨ has_creator h x.
Proof.
  revert r st st'. induction fuel as [| fuel IH]; intros r st st' Hrun; [done |].
  simpl in Hrun. apply bind_Ok in Hrun as (t & Ht%get_tensor_Ok & Hrun).
  destruct (_ctx t) as [| [c |]] eqn:Hc; [done | | by injection Hrun as <-; auto].
  apply bind_Ok in Hrun as ([v topo] & Hvisit & [= <-]).
  intros x [Hx | ->%list_elem_of_singleton]%elem_of_app.
  - eapply (visit_parents_creators (build_topo fuel h)); [| done | done].
    intros p st0 st1. apply IH.
  - right. by exists t, c.
Qed.
End Traversal.

(** ** What a pass calls, keeps and deletes *)

Section Passes.
Context {F : Type} `{Scalar F} {Op : Type}.
Variable ctx_backward : Context F Op → loc → heap F Op → result (heap F Op).
Implicit Types (h : heap F Op) (t : Tensor F Op) (c : Context F Op)
               (st : gset nat * list ref).

(** X2.  A pass that returns has called creators only, the creator of the
    root first; on a root without creator it has called nothing. *)
Theorem X2_calls_are_creators_root_first (fuel : nat) (self : ref)
    (debug : bool) (h h' : heap F Op) (calls : list ref) :
  backward ctx_backward fuel self debug h = (calls, Ok h') →
  (∀ r, r ∈ calls → has_creator h r)
  ∧ (has_creator h self → ∃ rest, calls = self :: rest)
  ∧ (¬ has_creator h self → calls = []).
Proof.
  intros Hrun. apply backward_inv in Hrun
    as (visited & topo & t & s & Hb & Ht & _ & Hloop).
  apply backward_loop_calls in Hloop as ->.
  split; [| split].
  - intros r Hr. rewrite elem_of_reverse in Hr.
    destruct (build_topo_creators _ _ _ _ _ Hb r Hr) as [Hnil | ?]; [| done].
    by apply elem_of_nil in Hnil.
  - intros (t0 & c & Ht0 & Hc). simplify_eq.
    destruct (build_topo_last _ _ _ _ _ _ _ Ht Hc Hb) as (topo' & Htopo).
    simpl in Htopo. subst topo. exists (reverse topo').
    by rewrite reverse_app.
  - intros Hleaf. destruct fuel as [| fuel]; [done |]. simpl in Hb.
    rewrite (proj2 (get_tensor_Ok _ _ _) Ht) in Hb. simpl in Hb.
    destruct (_ctx t) as [| [c |]] eqn:Hc; [done | | by injection Hb as _ <-].
    destruct Hleaf. by exists t, c.
Qed.

(** X3.  An operator that has only the [backward] of the base class: the
    pass calls the creator of the root and ends there with
    NotImplementedError, whatever [debug]. *)
Theorem X3_unimplemented_backward_aborts (fuel : nat) (self : ref)
    (debug : bool) (h : heap F Op) (t : Tensor F Op) (c : Context F Op)
    (d : loc) (a : ndarray F) (st : gset nat * list ref) :
  tensors h !! self = Some t → _ctx t = Bound (Some c) →
  data t = RArr d → arrays h !! d = Some a →
  build_topo fuel h self (∅, []) = Ok st →
  backward Context_backward fuel self debug h
  = ([self], Raise NotImplementedError).
Proof.
  intros Ht Hc Hd Ha Hb.
  destruct (build_topo_last _ _ _ _ _ _ _ Ht Hc Hb) as (topo' & Htopo).
  destruct st as [visited topo]. simpl in Htopo. subst topo.
  unfold backward. rewrite Hb. simpl.
  rewrite (proj2 (get_tensor_Ok _ _ _) Ht). simpl.
  rewrite (Tensor_shape_array h t d a Hd Ha). simpl.
  rewrite reverse_app. simpl. unfold get_tensor.
  erewrite set_tensor_lookup by done. simpl.
  unfold creator. simpl. by rewrite Hc.
Qed.

Hypothesis contract : follows_contract ctx_backward.

Lemma grad_only_same_slots c h h' : grad_only c h h' → same_slots h h'.
Proof.
  intros (Hlen & Htens & _) r.
  destruct (tensors h !! r) as [t |] eqn:Hr.
  - destruct (Htens r t Hr) as (t' & -> & _ & Hc & _). simpl. by rewrite Hc.
  - apply lookup_ge_None_1 in Hr. rewrite lookup_ge_None_2; [done | lia].
Qed.

(** The loop never touches the value or the flag of a Tensor, and it
    leaves the creator of those it does not delete. *)
Lemma backward_loop_spares debug ts h calls h' (r : ref) t :
  backward_loop ctx_backward debug ts h = (calls, Ok h') →
  tensors h !! r = Some t →
  ∃ t', tensors h' !! r = Some t' ∧ data t' = data t
        ∧ requires_grad t' = requires_grad t
        ∧ (debug = true ∨ r ∉ ts → _ctx t' = _ctx t).
Proof using contract.
  revert h calls t. induction ts as [| n ts IH]; intros h calls t Hrun Hr.
  - injection Hrun as _ <-. by exists t.
  - apply backward_loop_cons in Hrun
      as (tn & c & h1 & h2 & calls' & Hn & Hc & Hbk & Hstep & Hrest & _).
    destruct (contract_lookup _ contract _ _ _ _ _ _ Hbk Hr)
      as (t1 & Hr1 & Hd1 & Hc1 & Hf1).
    assert (∃ t2, tensors h2 !! r = Some t2 ∧ data t2 = data t
                  ∧ requires_grad t2 = requires_grad t
                  ∧ (debug = true ∨ r ≠ n → _ctx t2 = _ctx t))
      as (t2 & Hr2 & Hd2 & Hf2 & Hc2).
    { destruct debug.
      - subst h2. by exists t1.
      - apply del_ctx_inv in Hstep as (tn1 & Hn1 & ->).
        destruct (set_tensor_lookup_Some h1 n (with_ctx Deleted tn1) r t1 Hr1)
          as (t2 & Hr2 & Heq & Hne).
        exists t2. split; [done |].
        destruct (decide (r = n)) as [-> | Hrn].
        + rewrite (Heq eq_refl). simpl.
          assert (tn1 = t1) as -> by congruence.
          split; [done |]. split; [done |]. by intros [? | ?].
        + rewrite (Hne Hrn). by repeat split. }
    destruct (IH _ _ t2 Hrest Hr2) as (t' & Hr' & Hd' & Hf' & Hc').
    exists t'. split; [done |]. split; [congruence |]. split; [congruence |].
    intros Hkeep. rewrite Hc', Hc2; [done | |].
    + destruct Hkeep as [? | Hnotin]; [by left | right].
      intros ->. apply Hnotin. by left.
    + destruct Hkeep as [? | Hnotin]; [by left | right].
      intros Hin. apply Hnotin. by right.
Qed.

Lemma backward_loop_debug_slots ts h calls h' :
  backward_loop ctx_backward true ts h = (calls, Ok h') → same_slots h h'.
Proof using contract.
  revert h calls. induction ts as [| n ts IH]; intros h calls Hrun.
  - injection Hrun as _ <-. apply same_slots_refl.
  - apply backward_loop_cons in Hrun
      as (tn & c & h1 & h2 & calls' & _ & _ & Hbk & -> & Hrest & _).
    eapply same_slots_trans; [by eapply grad_only_same_slots, contract |].
    by eapply IH.
Qed.

(** X4.  With [debug] the graph is kept: after a pass that returned,
    [build_topo] returns what it returned before, and a second pass on the
    same root that returns has called the same creators in the same
    order. *)
Theorem X4_debug_keeps_the_graph (fuel : nat) (self : ref)
    (h h' : heap F Op) (calls : list ref) :
  backward ctx_backward fuel self true h = (calls, Ok h') →
  (∀ fuel' r st, build_topo fuel' h' r st = build_topo fuel' h r st)
  ∧ ∀ debug calls2 h2,
      backward ctx_backward fuel self debug h' = (calls2, Ok h2) →
      calls2 = calls.
Proof using contract.
  intros Hrun.
  assert (Hs : same_slots h h').
  { apply backward_inv in Hrun
      as (visited & topo & t & s & _ & Ht & _ & Hloop).
    eapply same_slots_trans; [| by eapply backward_loop_debug_slots].
    by apply (set_tensor_same_slots self t _ (MkHeap _ _)). }
  split.
  - intros fuel' r st. symmetry. by apply build_topo_ext.
  - intros debug calls2 h2 Hrun2.
    apply backward_inv in Hrun as (v1 & topo1 & ? & ? & Hb1 & _ & _ & Hl1).
    apply backward_inv in Hrun2 as (v2 & topo2 & ? & ? & Hb2 & _ & _ & Hl2).
    apply backward_loop_calls in Hl1 as ->. apply backward_loop_calls in Hl2 as ->.
    rewrite <- (build_topo_ext _ _ _ _ _ Hs) in Hb2. congruence.
Qed.

(** *** Without [debug] *)

(** The loop cannot pass a Tensor whose [_ctx] is already deleted. *)
Lemma backward_loop_stops_at_deleted debug ts h calls h' (r : ref) t :
  tensors h !! r = Some t → _ctx t = Deleted → r ∈ ts →
  backward_loop ctx_backward debug ts h = (calls, Ok h') → False.
Proof using contract.
  revert h calls t. induction ts as [| n ts IH]; intros h calls t Hr Hdel Hin Hrun.
  - by apply elem_of_nil in Hin.
  - apply backward_loop_cons in Hrun
      as (tn & c & h1 & h2 & calls' & Hn & Hc & Hbk & Hstep & Hrest & _).
    apply elem_of_cons in Hin as [-> | Hin]; [congruence |].
    destruct (contract_lookup _ contract _ _ _ _ _ _ Hbk Hr)
      as (t1 & Hr1 & _ & Hc1 & _).
    rewrite Hdel in Hc1. destruct debug.
    + subst h2. by eapply (IH h1 calls' t1).
    + apply del_ctx_inv in Hstep as (tn1 & Hn1 & ->).
      destruct (set_tensor_lookup_Some h1 n (with_ctx Deleted tn1) r t1 Hr1)
        as (t2 & Hr2 & Heq & Hne).
      eapply (IH _ calls' t2); [done | | done | done].
      destruct (decide (r = n)) as [-> | Hrn];
        [by rewrite (Heq eq_refl) | by rewrite (Hne Hrn)].
Qed.

Lemma backward_loop_NoDup ts h calls h' :
  backward_loop ctx_backward false ts h = (calls, Ok h') → NoDup ts.
Proof using contract.
  revert h calls. induction ts as [| n ts IH]; intros h calls Hrun.
  - constructor.
  - apply backward_loop_cons in Hrun
      as (tn & c & h1 & h2 & calls' & Hn & Hc & Hbk & Hstep & Hrest & _).
    constructor; [| by eapply IH].
    intros Hin. apply del_ctx_inv in Hstep as (tn1 & Hn1 & ->).
    eapply (backward_loop_stops_at_deleted false ts
              (set_tensor n (with_ctx Deleted tn1) h1) calls' h' n);
      [by eapply set_tensor_lookup | done | done | done].
Qed.

(** X5.  Without [debug] a pass returns only if no Tensor is listed twice:
    the sequence of its calls has no repetition. *)
Theorem X5_plain_pass_has_no_repetition (fuel : nat) (self : ref)
    (h h' : heap F Op) (calls : list ref) :
  backward ctx_backward fuel self false h = (calls, Ok h') → NoDup calls.
Proof using contract.
  intros Hrun. apply backward_inv in Hrun
    as (visited & topo & t & s & _ & _ & _ & Hloop).
  pose proof (backward_loop_calls _ _ _ _ _ _ Hloop) as ->.
  by eapply backward_loop_NoDup.
Qed.

(** X6.  A pass that returns has touched the value and the flag of no
    Tensor, and the creator of none but those it has processed without
    [debug]. *)
Theorem X6_pass_spares_the_rest (fuel : nat) (self : ref) (debug : bool)
    (h h' : heap F Op) (calls : list ref) (r : ref) (t : Tensor F Op) :
  backward ctx_backward fuel self debug h = (calls, Ok h') →
  tensors h !! r = Some t →
  ∃ t', tensors h' !! r = Some t' ∧ data t' = data t
        ∧ requires_grad t' = requires_grad t
        ∧ (debug = true ∨ r ∉ calls → _ctx t' = _ctx t).
Proof using contract.
  intros Hrun Hr. apply backward_inv in Hrun
    as (visited & topo & ts & s & _ & Hts & _ & Hloop).
  pose proof (backward_loop_calls _ _ _ _ _ _ Hloop) as ->.
  destruct (set_tensor_lookup_Some
              (MkHeap (tensors h) (arrays h ++ [np_ones s Float64]))
              self (with_grad (length (arrays h)) ts) r t Hr)
    as (t1 & Hr1 & Heq & Hne).
  destruct (backward_loop_spares _ _ _ _ _ r t1 Hloop Hr1)
    as (t' & Hr' & Hd' & Hf' & Hc').
  assert (data t1 = data t ∧ requires_grad t1 = requires_grad t
          ∧ _ctx t1 = _ctx t) as (Hd1 & Hf1 & Hc1).
  { destruct (decide (r = self)) as [-> | Hrs].
    - rewrite (Heq eq_refl). simpl. by simplify_eq.
    - by rewrite (Hne Hrs). }
  exists t'. split; [done |]. split; [congruence |]. split; [congruence |].
  intros Hkeep. rewrite Hc'; done.
Qed.
End Passes.

(** ** Where a failure comes from *)

Section Failures.
Context {F : Type} `{Scalar F} {Op : Type}.
Variable ctx_backward : Context F Op → loc → heap F Op → result (heap F Op).
Hypothesis contract : follows_contract ctx_backward.
Implicit Types (h : heap F Op) (t : Tensor F Op) (c : Context F Op).

Lemma same_slots_lookup h h' (x : ref) t' :
  same_slots h h' → tensors h' !! x = Some t' →
  ∃ t, tensors h !! x = Some t ∧ _ctx t = _ctx t'.
Proof.
  clear contract.
  intros Hs Hx. specialize (Hs x). rewrite Hx in Hs.
  destruct (tensors h !! x) as [t |]; [| done].
  exists t. split; [done |]. by injection Hs.
Qed.

(** On a list of Tensors with creators, without repetition unless [debug]
    is set, the loop fails only where an operator fails: the outcome is
    then the outcome of the last call, made on the creator that the
    Tensor had from the start and on its grad of the moment. *)
Lemma backward_loop_outcome debug ts h calls (r : result (heap F Op)) :
  (∀ x, x ∈ ts → has_creator h x) → (debug = false → NoDup ts) →
  backward_loop ctx_backward debug ts h = (calls, r) →
  (∃ h', r = Ok h' ∧ calls = ts)
  ∨ (∃ n t0 c tn h1,
       calls `prefix_of` ts ∧ last calls = Some n
       ∧ tensors h !! n = Some t0 ∧ _ctx t0 = Bound (Some c)
       ∧ tensors h1 !! n = Some tn ∧ _ctx tn = Bound (Some c)
       ∧ ctx_backward c (grad tn) h1 = r ∧ ∀ h', r ≠ Ok h').
Proof using contract.
  revert h calls. induction ts as [| n ts IH]; intros h calls Hcre Hnodup Hrun.
  - injection Hrun as <- <-. left. by eexists.
  - destruct (Hcre n) as (tn & c & Hn & Hc); [by left |].
    simpl in Hrun. rewrite (proj2 (get_tensor_Ok _ _ _) Hn) in Hrun.
    unfold creator in Hrun. simpl in Hrun. rewrite Hc in Hrun. simpl in Hrun.
    destruct (ctx_backward c (grad tn) h) as [h1 | e | |] eqn:Hbk; simpl in Hrun.
    + assert (Hs : same_slots h h1)
        by (by eapply grad_only_same_slots, contract).
      assert (∃ h2, (if debug then Ok h1 else del_ctx n h1) = Ok h2
                    ∧ (∀ x, x ∈ ts → has_creator h2 x)
                    ∧ (∀ x t2, x ∈ ts → tensors h2 !! x = Some t2 →
                         ∃ t1, tensors h !! x = Some t1 ∧ _ctx t1 = _ctx t2))
        as (h2 & Hstep & Hcre2 & Hback).
      { destruct debug.
        - exists h1. split; [done |]. split.
          + intros x Hx.
            eapply same_slots_has_creator; [done |]. apply Hcre. by right.
          + intros x t2 _ Hx2. by eapply same_slots_lookup.
        - destruct (same_slots_has_creator _ _ n Hs) as (tn1 & c1 & Hn1 & Hc1);
            [by exists tn, c |].
          assert (Hfresh : n ∉ ts).
          { specialize (Hnodup eq_refl). by apply NoDup_cons in Hnodup as [? _]. }
          exists (set_tensor n (with_ctx Deleted tn1) h1). split; [| split].
          + unfold del_ctx. rewrite (proj2 (get_tensor_Ok _ _ _) Hn1). simpl.
            by rewrite Hc1.
          + intros x Hx.
            destruct (same_slots_has_creator _ _ x Hs) as (tx & cx & Htx & Hcx);
              [apply Hcre; by right |].
            exists tx, cx. split; [| done].
            rewrite set_tensor_lookup_ne; [done |]. by intros ->.
          + intros x t2 Hx Hx2.
            rewrite set_tensor_lookup_ne in Hx2 by (by intros ->).
            by eapply same_slots_lookup. }
      rewrite Hstep in Hrun.
      destruct (backward_loop ctx_backward debug ts h2) as [calls' r'] eqn:Hrest.
      injection Hrun as <- <-.
      destruct (IH h2 calls' Hcre2)
        as [(h' & -> & ->)
           | (m & t0 & c' & tm & h3 & Hpre & Hlast & Ht0 & Hc0 & Htm & Hcm
              & Hop & Hbad)];
        [| done | left; by eexists |].
      { intros Hd. specialize (Hnodup Hd). by apply NoDup_cons in Hnodup as [_ ?]. }
      assert (Hm : m ∈ ts).
      { apply last_Some_elem_of in Hlast. destruct Hpre as [k ->].
        apply elem_of_app. by left. }
      destruct (Hback m t0 Hm Ht0) as (t1 & Ht1 & Hc1).
      right. exists m, t1, c', tm, h3. split; [by apply prefix_cons |].
      split; [destruct calls' as [| x calls']; done |].
      split; [done |]. split; [congruence |]. done.
    + injection Hrun as <- <-. right. exists n, tn, c, tn, h.
      split; [apply prefix_cons, prefix_nil |]. done.
    + injection Hrun as <- <-. right. exists n, tn, c, tn, h.
      split; [apply prefix_cons, prefix_nil |]. done.
    + injection Hrun as <- <-. right. exists n, tn, c, tn, h.
      split; [apply prefix_cons, prefix_nil |]. done.
Qed.

(** X7.  The engine adds no failure of its own to a traversal without
    repetition (or with [debug] set): once [build_topo] has returned and
    the value of the root has a shape, [backward] either returns, having
    called every listed creator in reverse order, or it ends with the
    outcome of the operator it called last: the [backward] of the creator
    [c] that the Tensor [n] had when the pass started, called on the grad
    of [n] in the heap [h1] of that moment. *)
Theorem X7_failure_is_the_operators (fuel : nat) (self : ref) (debug : bool)
    (h : heap F Op) (t : Tensor F Op) (s : list nat)
    (visited : gset nat) (topo calls : list ref) (r : result (heap F Op)) :
  build_topo fuel h self (∅, []) = Ok (visited, topo) →
  tensors h !! self = Some t → Tensor_shape h t = Ok s →
  (debug = false → NoDup topo) →
  backward ctx_backward fuel self debug h = (calls, r) →
  (∃ h', r = Ok h' ∧ calls = reverse topo)
  ∨ (∃ n t0 c tn h1,
       calls `prefix_of` reverse topo ∧ last calls = Some n
       ∧ tensors h !! n = Some t0 ∧ _ctx t0 = Bound (Some c)
       ∧ tensors h1 !! n = Some tn ∧ _ctx tn = Bound (Some c)
       ∧ ctx_backward c (grad tn) h1 = r ∧ ∀ h', r ≠ Ok h').
Proof using contract.
  intros Hb Ht Hs Hnodup. unfold backward. rewrite Hb. simpl.
  rewrite (proj2 (get_tensor_Ok _ _ _) Ht). simpl.
  rewrite Hs. simpl. intros Hloop.
  assert (Hslots : same_slots h
            (set_tensor self (with_grad (length (arrays h)) t)
               (MkHeap (tensors h) (arrays h ++ [np_ones s Float64]))))
    by (by apply (set_tensor_same_slots self t _ (MkHeap _ _))).
  apply backward_loop_outcome in Hloop
    as [Hok | (n & t0 & c & tn & h1 & Hpre & Hlast & Ht0 & Hc0 & Hrest)].
  - by left.
  - destruct (same_slots_lookup _ _ _ _ Hslots Ht0) as (t1 & Ht1 & Hc1).
    right. exists n, t1, c, tn, h1. split; [done |]. split; [done |].
    split; [done |]. split; [congruence | done].
  - intros x Hx. rewrite elem_of_reverse in Hx.
    destruct (build_topo_creators _ _ _ _ _ Hb x Hx) as [Hnil | Hcre];
      [by apply elem_of_nil in Hnil |].
    by eapply same_slots_has_creator.
  - intros Hdbg. rewrite reverse_Permutation. by apply Hnodup.
Qed.
End Failures.

(** ** Where the traversal is sound *)

Section Soundness.
Context {F : Type} `{Scalar F} {Op : Type}.
Variable h : heap F Op.
Hypothesis Hacy : acyclic h.
Implicit Types (t : Tensor F Op) (c : Context F Op) (st : gset nat * list ref).

Lemma acyclic_parents_below (r : ref) t c :
  tensors h !! r = Some t → _ctx t = Bound (Some c) →
  Forall (λ v, match v with VTensor p => p < r | VRaw _ => True end) (parents c).
Proof using Hacy.
  intros Hr Hc. pose proof (Hacy r t Hr) as Hbelow.
  unfold parents_below in Hbelow. by rewrite Hc in Hbelow.
Qed.

(** *** No repetition *)

Lemma visit_parents_tidy rec (r : ref) (ps : list (value F)) st st' :
  (∀ p st0 st1, p < r → tidy h st0 → p ∉ st0.1 → rec p st0 = Ok st1 →
     tidy h st1 ∧ st0.1 ⊆ st1.1 ∧ ∀ x, x ∈ st1.2 → x ∈ st0.2 ∨ x ≤ p) →
  has_creator h r →
  Forall (λ v, match v with VTensor p => p < r | VRaw _ => True end) ps →
  tidy h st →
  visit_parents rec r ps st = Ok st' →
  tidy h st' ∧ st.1 ⊆ st'.1
  ∧ (∀ x, x ∈ st'.2 → x ∈ st.2 ∨ x < r)
  ∧ (∀ p, VTensor p ∈ ps → ¬ has_creator h p → r ∈ st'.1).
Proof.
  intros Hrec Hr Hps. revert st.
  induction Hps as [| v ps Hv Hps IH]; intros st Htidy Hrun.
  - injection Hrun as <-. repeat split; try done; try apply Htidy; auto.
    intros p Hp. by apply elem_of_nil in Hp.
  - destruct v as [p | o]; simpl in Hrun.
    + apply bind_Ok in Hrun as (st1 & Hp & Hrest).
      destruct (decide (p ∈ st.1)) as [Hin | Hnotin].
      * injection Hp as <-.
        destruct (IH _ Htidy Hrest) as (Ht' & Hsub & Hbound & Hleaf).
        repeat split; try done; try apply Ht'.
        intros q [[= ->] | Hq]%elem_of_cons Hnc; [| by apply (Hleaf q)].
        destruct Hnc. by apply Htidy.
      * destruct Htidy as (Hlisted & Hnodup & Hcre).
        destruct (Hrec p ({[r]} ∪ st.1, st.2) st1 Hv) as (Ht1 & Hsub1 & Hbound1);
          [| | done |].
        { repeat split; simpl; [| done |].
          - intros x Hx. apply elem_of_union. right. by apply Hlisted.
          - intros x [->%elem_of_singleton | Hx]%elem_of_union; auto. }
        { simpl. rewrite elem_of_union, elem_of_singleton.
          intros [-> | ?]; [lia | done]. }
        simpl in *.
        destruct (IH _ Ht1 Hrest) as (Ht' & Hsub & Hbound & Hleaf).
        assert (Hr' : r ∈ st'.1).
        { apply Hsub, Hsub1, elem_of_union. left. by apply elem_of_singleton. }
        repeat split; try apply Ht'.
        -- intros x Hx. apply Hsub, Hsub1, elem_of_union. by right.
        -- intros x Hx. destruct (Hbound x Hx) as [Hx1 | ?]; [| by right].
           destruct (Hbound1 x Hx1) as [? | ?]; [by left | right; lia].
        -- intros q [[= ->] | Hq]%elem_of_cons Hnc; [done | by apply (Hleaf q)].
    + destruct (IH _ Htidy Hrun) as (Ht' & Hsub & Hbound & Hleaf).
      repeat split; try done; try apply Ht'.
      intros q [[=] | Hq]%elem_of_cons Hnc. by apply (Hleaf q).
Qed.

Lemma build_topo_tidy fuel (r : ref) st st' :
  leafy h → tidy h st → r ∉ st.1 →
  build_topo fuel h r st = Ok st' →
  tidy h st' ∧ st.1 ⊆ st'.1 ∧ ∀ x, x ∈ st'.2 → x ∈ st.2 ∨ x ≤ r.
Proof using Hacy.
  intros Hleafy. revert r st st'.
  induction fuel as [| fuel IH]; intros r st st' Htidy Hr Hrun; [done |].
  simpl in Hrun. apply bind_Ok in Hrun as (t & Ht%get_tensor_Ok & Hrun).
  destruct (_ctx t) as [| [c |]] eqn:Hc; [done | | by injection Hrun as <-; auto].
  apply bind_Ok in Hrun as ([v topo] & Hvisit & [= <-]).
  destruct (visit_parents_tidy (build_topo fuel h) r (parents c) st (v, topo))
    as (Ht' & Hsub & Hbound & Hleaf); try done.
  { intros p st0 st1 _. apply IH. }
  { by exists t, c. }
  { by eapply acyclic_parents_below. }
  simpl in *. destruct Ht' as (Hlisted & Hnodup & Hcre).
  destruct (Hleafy r t c Ht Hc) as (p & tp & Hp & Htp & Hnone).
  assert (Hrv : r ∈ v).
  { apply (Hleaf p Hp). intros (tp' & c' & Htp' & Hc'). congruence. }
  assert (Hrt : r ∉ topo).
  { intros Hin. destruct (Hbound r Hin) as [Hst | ?]; [| lia].
    apply Hr. by apply Htidy. }
  repeat split; simpl.
  - intros x [? | ->%list_elem_of_singleton]%elem_of_app; auto.
  - apply NoDup_app. split; [done |]. split; [| apply NoDup_singleton].
    intros x Hx ->%list_elem_of_singleton. done.
  - done.
  - done.
  - intros x [Hx | ->%list_elem_of_singleton]%elem_of_app; [| right; lia].
    destruct (Hbound x Hx) as [? | ?]; [by left | right; lia].
Qed.

(** X8.  In an acyclic graph where every creator has a leaf among its
    parents, [build_topo] lists no Tensor twice. *)
Theorem X8_leaf_operands_no_repetition (fuel : nat) (self : ref)
    (visited : gset nat) (topo : list ref) :
  leafy h →
  build_topo fuel h self (∅, []) = Ok (visited, topo) → NoDup topo.
Proof using Hacy.
  intros Hleafy Hrun.
  destruct (build_topo_tidy fuel self (∅, []) (visited, topo) Hleafy)
    as ((_ & Hnodup & _) & _); try done.
  repeat split; simpl; [| constructor |].
  - intros x Hx. by apply elem_of_nil in Hx.
  - intros x Hx. by apply elem_of_empty in Hx.
Qed.

(** *** Parents first *)

Lemma visit_parents_settled rec (r : ref) (ps : list (value F)) st0 st st' :
  (∀ p s0 s1, p < r → parents_first h s0.2 → settled p s0 → rec p s0 = Ok s1 →
     parents_first h s1.2 ∧ (∀ x, x ∈ s1.1 → x ∈ s0.1 ∨ x ∈ s1.2)
     ∧ s0.2 `prefix_of` s1.2 ∧ (has_creator h p → p ∈ s1.2)) →
  settled r st0 →
  Forall (λ v, match v with VTensor p => p < r | VRaw _ => True end) ps →
  parents_first h st.2 →
  (∀ x, x ∈ st.1 → x ∈ st0.1 ∨ x ∈ st.2 ∨ x = r) →
  st0.2 `prefix_of` st.2 →
  visit_parents rec r ps st = Ok st' →
  parents_first h st'.2
  ∧ (∀ x, x ∈ st'.1 → x ∈ st0.1 ∨ x ∈ st'.2 ∨ x = r)
  ∧ st.2 `prefix_of` st'.2
  ∧ (∀ n, VTensor n ∈ ps → has_creator h n → n ∈ st'.2).
Proof.
  clear Hacy. intros Hrec Hset0 Hps. revert st.
  induction Hps as [| v ps Hv Hps IH]; intros st Hpf Hk Hpre Hrun.
  - injection Hrun as <-. repeat split; try done.
    intros n Hn. by apply elem_of_nil in Hn.
  - destruct v as [p | o]; simpl in Hrun.
    + apply bind_Ok in Hrun as (st1 & Hp & Hrest).
      destruct (decide (p ∈ st.1)) as [Hin | Hnotin].
      * injection Hp as <-.
        destruct (IH _ Hpf Hk Hpre Hrest) as (Hpf' & Hk' & Hpre' & Hlisted).
        repeat split; try done.
        intros n [[= Heq] | Hn]%elem_of_cons Hcre; [subst n | by apply Hlisted].
        eapply elem_of_prefix; [| done].
        destruct (Hk p Hin) as [Hn0 | [? | ->]]; [| done | lia].
        destruct (Hset0 p Hn0) as [? | ?]; [| lia].
        by eapply elem_of_prefix.
      * destruct (Hrec p ({[r]} ∪ st.1, st.2) st1 Hv Hpf)
          as (Hpf1 & Hk1 & Hpre1 & Hp1); [| done |].
        { intros x Hx. simpl in *.
          apply elem_of_union in Hx as [->%elem_of_singleton | Hx]; [by right |].
          destruct (Hk x Hx) as [Hx0 | [? | ->]]; [| by left | by right].
          destruct (Hset0 x Hx0) as [? | ?]; [left | right; lia].
          by eapply elem_of_prefix. }
        simpl in *.
        destruct (IH st1 Hpf1) as (Hpf' & Hk' & Hpre' & Hlisted); [| | done |].
        { intros x Hx.
          destruct (Hk1 x Hx) as [[->%elem_of_singleton | Hxs]%elem_of_union | ?];
            [by right; right | | by right; left].
          destruct (Hk x Hxs) as [? | [? | ?]]; [by left | | by right; right].
          right; left. by eapply elem_of_prefix. }
        { by etrans. }
        repeat split; try done; [by etrans |].
        intros n [[= Heq] | Hn]%elem_of_cons Hcre; [subst n | by apply Hlisted].
        eapply elem_of_prefix; [by apply Hp1 | done].
    + destruct (IH _ Hpf Hk Hpre Hrun) as (Hpf' & Hk' & Hpre' & Hlisted).
      repeat split; try done.
      intros n [[=] | Hn]%elem_of_cons Hcre. by apply Hlisted.
Qed.

Lemma parents_first_snoc (topo : list ref) (r : ref) t c :
  tensors h !! r = Some t → _ctx t = Bound (Some c) →
  parents_first h topo →
  (∀ n, VTensor n ∈ parents c → has_creator h n → n ∈ topo) →
  parents_first h (topo ++ [r]).
Proof.
  clear Hacy. intros Ht Hc Hpf Hlisted j u n Hj Hcons Hcre.
  apply lookup_app_Some in Hj as [Hj | [Hlen Hj]].
  - destruct (Hpf j u n Hj Hcons Hcre) as (i & Hi & Hn).
    exists i. split; [done |]. by apply lookup_app_l_Some.
  - apply list_lookup_singleton_Some in Hj as [Hj ->].
    destruct Hcons as (t' & c' & Ht' & Hc' & Hin). simplify_eq.
    rewrite Hc in Hc'. injection Hc' as <-.
    destruct (list_elem_of_lookup_1 _ _ (Hlisted n Hin Hcre)) as (i & Hi).
    exists i. split; [| by apply lookup_app_l_Some].
    apply lookup_lt_Some in Hi. lia.
Qed.

Lemma build_topo_parents_first fuel (r : ref) st st' :
  parents_first h st.2 → settled r st →
  build_topo fuel h r st = Ok st' →
  parents_first h st'.2 ∧ (∀ x, x ∈ st'.1 → x ∈ st.1 ∨ x ∈ st'.2)
  ∧ st.2 `prefix_of` st'.2 ∧ (has_creator h r → r ∈ st'.2).
Proof using Hacy.
  revert r st st'.
  induction fuel as [| fuel IH]; intros r st st' Hpf Hset Hrun; [done |].
  simpl in Hrun. apply bind_Ok in Hrun as (t & Ht%get_tensor_Ok & Hrun).
  destruct (_ctx t) as [| [c |]] eqn:Hc; [done | |].
  - apply bind_Ok in Hrun as ([v topo] & Hvisit & [= <-]).
    destruct (visit_parents_settled (build_topo fuel h) r (parents c) st st (v, topo))
      as (Hpf' & Hk' & Hpre' & Hlisted); try done.
    { intros p s0 s1 _. apply IH. }
    { by eapply acyclic_parents_below. }
    { intros x Hx. by left. }
    simpl in *. repeat split.
    + by eapply parents_first_snoc.
    + intros x Hx. destruct (Hk' x Hx) as [? | [? | ->]]; [by left | |];
        right; apply elem_of_app; [by left | right].
      by apply list_elem_of_singleton.
    + by apply prefix_app_r.
    + intros _. apply elem_of_app. right. by apply list_elem_of_singleton.
  - injection Hrun as <-. repeat split; try done; [by left |].
    intros (t' & c' & Ht' & Hc'). congruence.
Qed.

(** X9.  In an acyclic graph [build_topo] lists every Tensor after those
    of its parents that have a creator: each occurrence of a consumer
    comes after an occurrence of the Tensor it consumes. *)
Theorem X9_parents_listed_first (fuel : nat) (self : ref)
    (visited : gset nat) (topo : list ref) :
  build_topo fuel h self (∅, []) = Ok (visited, topo) → parents_first h topo.
Proof using Hacy.
  intros Hrun.
  destruct (build_topo_parents_first fuel self (∅, []) (visited, topo))
    as (Hpf & _); [| | done | done].
  - intros j u n Hj. simpl in Hj. by rewrite lookup_nil in Hj.
  - intros x Hx. by apply elem_of_empty in Hx.
Qed.

(** *** The pass on such a graph *)

Variable ctx_backward : Context F Op → loc → heap F Op → result (heap F Op).

(** Whatever the outcome, the calls made are the first Tensors of the
    list. *)
Lemma backward_loop_calls_prefix debug ts (h0 : heap F Op) calls
    (r : result (heap F Op)) :
  backward_loop ctx_backward debug ts h0 = (calls, r) → calls `prefix_of` ts.
Proof.
  clear Hacy. revert h0 calls r.
  induction ts as [| n ts IH]; intros h0 calls r Hrun.
  - injection Hrun as <- _. done.
  - simpl in Hrun.
    destruct (get_tensor h0 n ≫= _) as [[c g] | | |];
      try (injection Hrun as <- _; apply prefix_nil).
    destruct (ctx_backward c g h0 ≫= _) as [h2 | | |];
      try (injection Hrun as <- _; apply prefix_cons, prefix_nil).
    destruct (backward_loop ctx_backward debug ts h2) as [calls' r'] eqn:Hrest.
    injection Hrun as <- _. apply prefix_cons. by eapply IH.
Qed.

Lemma backward_calls_prefix fuel (self : ref) debug calls
    (r : result (heap F Op)) :
  backward ctx_backward fuel self debug h = (calls, r) →
  calls = []
  ∨ ∃ visited topo, build_topo fuel h self (∅, []) = Ok (visited, topo)
                    ∧ calls `prefix_of` reverse topo.
Proof.
  clear Hacy. unfold backward.
  destruct (build_topo fuel h self (∅, [])) as [[visited topo] | | |] eqn:Hb;
    simpl; try (intros [= <- _]; by left).
  destruct (get_tensor h self) as [t | | |]; simpl;
    try (intros [= <- _]; by left).
  destruct (Tensor_shape h t) as [s | | |]; simpl;
    try (intros [= <- _]; by left).
  intros Hloop%backward_loop_calls_prefix. right. by exists visited, topo.
Qed.

(** X10.  On an acyclic graph where every creator has a leaf among its
    parents, a pass is topologically sound and calls no creator twice,
    whether it returns or fails: every Tensor is processed after all the
    Tensors that consume it. *)
Theorem X10_sound_with_leaf_operands (fuel : nat) (self : ref) (debug : bool)
    (calls : list ref) (r : result (heap F Op)) :
  leafy h →
  backward ctx_backward fuel self debug h = (calls, r) →
  NoDup calls ∧ topologically_sound h calls.
Proof using Hacy.
  intros Hleafy Hrun.
  destruct (backward_calls_prefix _ _ _ _ _ Hrun)
    as [-> | (visited & topo & Hb & Hpre)].
  { split; [constructor |]. intros i j u n Hi. by rewrite lookup_nil in Hi. }
  assert (Hnodup : NoDup topo).
  { destruct (build_topo_tidy fuel self (∅, []) (visited, topo) Hleafy)
      as ((_ & Hnodup & _) & _); [| | done | done].
    - repeat split; simpl; [| constructor |].
      + intros x Hx. by apply elem_of_nil in Hx.
      + intros x Hx. by apply elem_of_empty in Hx.
    - intros Hx. by apply elem_of_empty in Hx. }
  assert (Hpf : parents_first h topo).
  { destruct (build_topo_parents_first fuel self (∅, []) (visited, topo))
      as (Hpf & _); [| | done | done].
    - intros j u n Hj. simpl in Hj. by rewrite lookup_nil in Hj.
    - intros x Hx. by apply elem_of_empty in Hx. }
  split.
  - destruct Hpre as [k Hk]. apply (f_equal (@reverse nat)) in Hk.
    rewrite reverse_involutive in Hk. subst topo.
    rewrite reverse_Permutation in Hnodup.
    by apply NoDup_app in Hnodup as (? & _ & _).
  - intros i j u n Hi Hj Hcons.
    apply (prefix_lookup_Some _ _ _ _ Hi) in Hpre as Hi'.
    apply (prefix_lookup_Some _ _ _ _ Hj) in Hpre as Hj'.
    apply reverse_lookup_Some in Hi' as [Hi' Hilt].
    apply reverse_lookup_Some in Hj' as [Hj' Hjlt].
    assert (Hcre : has_creator h n).
    { destruct (build_topo_creators _ _ _ _ _ Hb n) as [Hnil | ?]; [| | done].
      - by eapply list_elem_of_lookup_2.
      - by apply elem_of_nil in Hnil. }
    destruct (Hpf _ u n Hj' Hcons Hcre) as (k & Hk & Hn).
    pose proof (NoDup_lookup _ _ _ _ Hnodup Hn Hi') as ->.
    clear -Hk Hilt Hjlt. lia.
Qed.
End Soundness.

(** ** Termination *)

#[local] Set Warnings "-clear-no-such-hyp".

Section Termination.
Context {F : Type} `{Scalar F} {Op : Type}.
Implicit Types (h : heap F Op) (t : Tensor F Op) (c : Context F Op)
               (st : gset nat * list ref).

Lemma unmarked_mono n (v v' : gset nat) : v ⊆ v' → unmarked n v' ≤ unmarked n v.
Proof. intros Hsub. apply subseteq_size. set_solver. Qed.

Lemma unmarked_mark n (p : nat) (v : gset nat) :
  p < n → p ∉ v → unmarked n ({[p]} ∪ v) < unmarked n v.
Proof.
  intros Hp Hnotin. apply subset_size. split; [set_solver |].
  intros Hsub. assert (Hin : p ∈ (set_seq 0 n ∖ v : gset nat)).
  { apply elem_of_difference. split; [| done]. apply elem_of_set_seq. lia. }
  apply Hsub in Hin. set_solver.
Qed.

Lemma unmarked_le n (v : gset nat) : unmarked n v ≤ n.
Proof.
  unfold unmarked. etrans; [apply (subseteq_size _ (set_seq 0 n)); set_solver |].
  by rewrite size_set_seq.
Qed.

(** The marks only grow. *)
Lemma visit_parents_marks_grow rec (tensor : ref) (ps : list (value F)) st st' :
  (∀ p s0 s1, rec p s0 = Ok s1 → s0.1 ⊆ s1.1) →
  visit_parents rec tensor ps st = Ok st' → st.1 ⊆ st'.1.
Proof.
  intros Hrec. revert st. induction ps as [| v ps IH]; intros st Hrun.
  - by injection Hrun as <-.
  - destruct v as [p | o]; simpl in Hrun; [| by apply IH].
    apply bind_Ok in Hrun as (st1 & Hp & Hrest).
    etrans; [| by apply IH].
    destruct (decide (p ∈ st.1)); [by injection Hp as <- |].
    apply Hrec in Hp. simpl in Hp. set_solver.
Qed.

Lemma build_topo_marks_grow fuel h (r : ref) st st' :
  build_topo fuel h r st = Ok st' → st.1 ⊆ st'.1.
Proof.
  revert r st st'. induction fuel as [| fuel IH]; intros r st st' Hrun; [done |].
  simpl in Hrun. apply bind_Ok in Hrun as (t & _ & Hrun).
  destruct (_ctx t) as [| [c |]]; [done | | by injection Hrun as <-].
  apply bind_Ok in Hrun as ([v topo] & Hvisit & [= <-]). simpl.
  by apply (visit_parents_marks_grow (build_topo fuel h) r (parents c) st (v, topo)).
Qed.

(** What bounds the depth below a call on [r]: twice the Tensors without
    a mark once [r] has one, and one more if [r] has none yet. *)
Lemma visit_parents_returns_bounded rec n (k : nat) (r : ref)
    (ps : list (value F)) (entry : gset nat) st :
  (∀ p s0, p < n →
     2 * unmarked n ({[p]} ∪ s0.1) + (if decide (p ∈ s0.1) then 0 else 1) < k →
     returns (rec p s0)) →
  (∀ p s0 s1, rec p s0 = Ok s1 → s0.1 ⊆ s1.1) →
  Forall (λ v, match v with VTensor p => p < n | VRaw _ => True end) ps →
  2 * unmarked n ({[r]} ∪ entry) + (if decide (r ∈ entry) then 0 else 1) ≤ k →
  entry ⊆ st.1 →
  returns (visit_parents rec r ps st).
Proof.
  intros Hret Hmono Hps Hk. revert st.
  induction Hps as [| v ps Hv Hps IH]; intros st Hsub.
  - left. by eexists.
  - destruct v as [p | o]; simpl; [| by apply IH].
    destruct (decide (p ∈ st.1)) as [Hin | Hnotin]; simpl; [by apply IH |].
    destruct (Hret p ({[r]} ∪ st.1, st.2) Hv) as [[s1 Hs1] | Hraise].
    + simpl. destruct (decide (p = r)) as [-> | Hne].
      * rewrite decide_True by set_solver.
        rewrite decide_False in Hk by set_solver.
        assert (Hsup : {[r]} ∪ entry ⊆ {[r]} ∪ ({[r]} ∪ st.1)) by set_solver.
        pose proof (unmarked_mono n _ _ Hsup). lia.
      * rewrite decide_False by set_solver.
        assert (Hnew : p ∉ {[r]} ∪ st.1) by set_solver.
        assert (Hsup : {[r]} ∪ entry ⊆ {[r]} ∪ st.1) by set_solver.
        pose proof (unmarked_mark n p ({[r]} ∪ st.1) Hv Hnew).
        pose proof (unmarked_mono n _ _ Hsup).
        destruct (decide (r ∈ entry)); lia.
    + rewrite Hs1. simpl. apply IH.
      apply Hmono in Hs1. simpl in Hs1. set_solver.
    + rewrite Hraise. by right.
Qed.

Lemma build_topo_returns_bounded fuel h (r : ref) st :
  refs_valid h → r < length (tensors h) →
  2 * unmarked (length (tensors h)) ({[r]} ∪ st.1)
    + (if decide (r ∈ st.1) then 0 else 1) < fuel →
  returns (build_topo fuel h r st).
Proof.
  intros Hvalid. revert r st.
  induction fuel as [| fuel IH]; intros r st Hr Hfuel; [lia |].
  destruct (lookup_lt_is_Some_2 _ _ Hr) as [t Ht].
  simpl. rewrite (proj2 (get_tensor_Ok _ _ _) Ht). simpl.
  destruct (_ctx t) as [| [c |]] eqn:Hc; [by right | | left; by eexists].
  assert (Hv : returns (visit_parents (build_topo fuel h) r (parents c) st)).
  { apply (visit_parents_returns_bounded (build_topo fuel h)
             (length (tensors h)) fuel r (parents c) st.1 st).
    - intros p s0 Hp Hlt. by apply IH.
    - intros p s0 s1. apply build_topo_marks_grow.
    - apply Forall_forall. intros [p | o] Hin; [| done].
      by apply (Hvalid r t c p).
    - lia.
    - done. }
  destruct Hv as [[[v topo] ->] | ->]; simpl; [left; by eexists | by right].
Qed.

(** An outcome other than the lack of fuel stays with more fuel. *)
Lemma visit_parents_fuel_stable (rec rec' : ref → gset nat * list ref →
                                   result (gset nat * list ref))
    (tensor : ref) (ps : list (value F)) st :
  (∀ p s0, rec p s0 ≠ OutOfFuel → rec' p s0 = rec p s0) →
  visit_parents rec tensor ps st ≠ OutOfFuel →
  visit_parents rec' tensor ps st = visit_parents rec tensor ps st.
Proof.
  intros Hrec. revert st. induction ps as [| v ps IH]; intros st Hrun; [done |].
  destruct v as [p | o]; simpl in *; [| by apply IH].
  destruct (decide (p ∈ st.1)); simpl in *; [by apply IH |].
  destruct (rec p ({[tensor]} ∪ st.1, st.2)) as [s1 | e | |] eqn:Hp;
    simpl in *; rewrite Hrec, Hp by (by rewrite Hp); simpl; [by apply IH | done..].
Qed.

Lemma build_topo_S fuel h (r : ref) st :
  build_topo (S fuel) h r st
  = (t ← get_tensor h r;
     match _ctx t with
     | Deleted => Raise AttributeError
     | Bound None => Ok st
     | Bound (Some context) =>
         '(visited, topo) ←
            visit_parents (build_topo fuel h) r (parents context) st;
         Ok (visited, topo ++ [r])
     end).
Proof. done. Qed.

Lemma build_topo_fuel_stable fuel h (r : ref) st :
  build_topo fuel h r st ≠ OutOfFuel →
  build_topo (S fuel) h r st = build_topo fuel h r st.
Proof.
  revert r st. induction fuel as [| fuel IH]; intros r st Hrun; [done |].
  rewrite (build_topo_S (S fuel)). rewrite (build_topo_S fuel) in Hrun |- *.
  destruct (get_tensor h r) as [t | | |]; simpl in *; try done.
  destruct (_ctx t) as [| [c |]]; try done.
  rewrite (visit_parents_fuel_stable (build_topo fuel h) (build_topo (S fuel) h)).
  - done.
  - intros p s0 Hp. by apply IH.
  - intros Hv. by rewrite Hv in Hrun.
Qed.

Lemma build_topo_fuel_stable_le fuel fuel' h (r : ref) st :
  fuel ≤ fuel' → build_topo fuel h r st ≠ OutOfFuel →
  build_topo fuel' h r st = build_topo fuel h r st.
Proof.
  intros Hle Hrun. induction Hle as [| fuel' Hle IH]; [done |].
  rewrite build_topo_fuel_stable; [done |]. by rewrite IH.
Qed.

(** X11.  The traversal ends on every heap whose references are valid,
    cycles or not: a Tensor that is being expanded bears a mark by the time
    its parents are visited, so the recursion is never deeper than twice
    the number of Tensors plus two, and beyond that depth the outcome does
    not depend on the fuel. *)
Theorem X11_traversal_terminates (h : heap F Op) (self : ref) (fuel : nat) :
  refs_valid h → self < length (tensors h) →
  2 * length (tensors h) + 2 ≤ fuel →
  returns (build_topo fuel h self (∅, []))
  ∧ build_topo fuel h self (∅, [])
    = build_topo (2 * length (tensors h) + 2) h self (∅, []).
Proof.
  intros Hvalid Hself Hfuel.
  assert (Hret : returns (build_topo (2 * length (tensors h) + 2) h self (∅, []))).
  { apply build_topo_returns_bounded; [done | done |]. simpl.
    pose proof (unmarked_le (length (tensors h)) ({[self]} ∪ ∅)).
    destruct (decide (self ∈ (∅ : gset nat))); lia. }
  assert (Heq : build_topo fuel h self (∅, [])
                = build_topo (2 * length (tensors h) + 2) h self (∅, [])).
  { apply build_topo_fuel_stable_le; [done |].
    destruct Hret as [[st' ->] | ->]; done. }
  split; [by rewrite Heq | done].
Qed.
End Termination.

(** ** Building the graph *)

Section GraphBuilding.
Context {F : Type} `{Scalar F} {Op Kwargs : Type}.
Variable forward :
  Op → list ref → Kwargs → heap F Op → result (raw F * Context F Op * heap F Op).
Hypothesis forward_ok : forward_contract forward.
Implicit Types (h : heap F Op) (t : Tensor F Op).

(** The list comprehension of [comm] adds one Tensor, a leaf, for every
    operand that is not a Tensor, and returns Tensors that exist. *)
Lemma coerce_count (ts : list (value F)) h rs h1 :
  operands_exist h ts →
  coerce ts h = Ok (rs, h1) →
  length (tensors h1) = length (tensors h) + length (filter is_raw ts)
  ∧ Forall (λ p, p < length (tensors h1)) rs
  ∧ ∀ r t, tensors h1 !! r = Some t → length (tensors h) ≤ r →
           _ctx t = Bound None.
Proof.
  clear forward_ok forward. revert h rs h1.
  induction ts as [| v ts IH]; intros h rs h1 Hex Hrun.
  - injection Hrun as <- <-. simpl. split; [lia |]. split; [constructor |].
    intros r t Hr%lookup_lt_Some Hle. lia.
  - apply Forall_cons in Hex as [Hv Hex]. destruct v as [p | o]; simpl in Hrun.
    + apply bind_Ok in Hrun as ([rs' h'] & Hrest & [= <- <-]).
      destruct (IH _ _ _ Hex Hrest) as (Hlen & Hrs & Hnew).
      split; [done |]. split; [| done]. constructor; [lia | done].
    + apply bind_Ok in Hrun as ([r hm] & Hinit & Hrun).
      apply bind_Ok in Hrun as ([rs' h'] & Hrest & [= <- <-]).
      destruct (Tensor_init_inv _ _ _ _ _ _ _ Hinit) as (a & _ & -> & Hts & _).
      assert (Hex' : operands_exist hm ts).
      { eapply Forall_impl; [done |]. intros [q | ?]; [| done].
        rewrite Hts, length_app. simpl. lia. }
      destruct (IH _ _ _ Hex' Hrest) as (Hlen & Hrs & Hnew).
      rewrite Hts, length_app in Hlen. simpl in Hlen.
      split; [rewrite filter_cons_True by done; simpl; lia |].
      split; [constructor; [lia | done] |].
      intros r t Hr Hle.
      destruct (decide (r = length (tensors h))) as [-> | Hne].
      * assert (Hm : tensors hm !! length (tensors h)
                     = Some (MkTensor (RArr (length (arrays h)))
                               (S (length (arrays h))) (Bound None) false ""))
          by (rewrite Hts; by apply list_lookup_middle).
        destruct (coerce_spec _ _ _ _ Hrest) as [[Hpre _] _].
        pose proof (prefix_lookup_Some _ _ _ _ Hm Hpre) as Hm'.
        by simplify_eq.
      * apply (Hnew r t Hr). rewrite Hts, length_app. simpl. lia.
Qed.

(** X12.  [comm] only adds to the heap: every Tensor and every array that
    existed is unchanged, and the heap gains one Tensor for each operand
    that is not a Tensor, all of them without creator, then the result. *)
Theorem X12_comm_only_adds (op : Op) (ts : list (value F)) (kwargs : Kwargs)
    (h h' : heap F Op) (r : ref) :
  operands_exist h ts →
  comm forward op ts kwargs h = Ok (r, h') →
  extends h h'
  ∧ length (tensors h') = length (tensors h) + length (filter is_raw ts) + 1
  ∧ r = length (tensors h) + length (filter is_raw ts)
  ∧ ∀ q t, length (tensors h) ≤ q → q < r → tensors h' !! q = Some t →
           _ctx t = Bound None.
Proof using forward_ok.
  unfold comm. intros Hex Hrun.
  apply bind_Ok in Hrun as ([operands h1] & Hco & Hrun).
  apply bind_Ok in Hrun as ([[d c] h2] & Hfw & Hinit).
  destruct (coerce_spec _ _ _ _ Hco) as [Hext1 _].
  destruct (coerce_count _ _ _ _ Hex Hco) as (Hlen & _ & Hleaves).
  destruct (forward_ok _ _ _ _ _ _ _ Hfw) as (Hts2 & Harr2 & _).
  pose proof (Tensor_init_extends _ _ _ _ _ _ _ Hinit) as Hext3.
  destruct (Tensor_init_inv _ _ _ _ _ _ _ Hinit) as (a & _ & -> & Hts & _).
  split; [| split; [| split]].
  - eapply extends_trans; [done |]. eapply extends_trans; [| done].
    split; [by rewrite Hts2 | done].
  - rewrite Hts, length_app, Hts2. simpl. lia.
  - rewrite Hts2. lia.
  - intros q t Hle Hlt Hq. rewrite Hts in Hq.
    rewrite lookup_app_l in Hq by done. rewrite Hts2 in Hq.
    by apply (Hleaves q t).
Qed.

(** X13.  [comm] keeps the graph acyclic: the creator of the result only
    knows Tensors made before it, and the leaves it makes have none. *)
Theorem X13_comm_keeps_acyclic (op : Op) (ts : list (value F))
    (kwargs : Kwargs) (h h' : heap F Op) (r : ref) :
  acyclic h → operands_exist h ts →
  comm forward op ts kwargs h = Ok (r, h') →
  acyclic h'.
Proof using forward_ok.
  unfold comm. intros Hacy Hex Hrun.
  apply bind_Ok in Hrun as ([operands h1] & Hco & Hrun).
  apply bind_Ok in Hrun as ([[d c] h2] & Hfw & Hinit).
  destruct (coerce_spec _ _ _ _ Hco) as [[Hpre1 _] _].
  destruct (coerce_count _ _ _ _ Hex Hco) as (Hlen & Hops & Hleaves).
  destruct (forward_ok _ _ _ _ _ _ _ Hfw) as (Hts2 & _ & Hpar).
  destruct (Tensor_init_inv _ _ _ _ _ _ _ Hinit) as (a & _ & -> & Hts & _).
  intros q t Hq. rewrite Hts, Hts2 in Hq.
  apply lookup_app_Some in Hq as [Hq | [Hle Hq]].
  - destruct (decide (q < length (tensors h))) as [Hlt | Hge].
    + apply (Hacy q t). destruct (lookup_lt_is_Some_2 _ _ Hlt) as [t0 Ht0].
      pose proof (prefix_lookup_Some _ _ _ _ Ht0 Hpre1). by simplify_eq.
    + unfold parents_below. rewrite (Hleaves q t Hq); [done | lia].
  - apply list_lookup_singleton_Some in Hq as [Hq <-].
    unfold parents_below. simpl. apply Forall_forall. intros [p | o] Hin; [| done].
    pose proof (proj1 (Forall_forall _ _) Hops p (Hpar p Hin)) as Hp.
    simpl in Hp. lia.
Qed.
End GraphBuilding.

(** ** In-place arithmetic with a Python float *)

Section Numbers.
Context {F : Type} `{Scalar F} {Op : Type}.
Implicit Types (h : heap F Op) (t : Tensor F Op) (a : ndarray F).





End Numbers.

(** ** Invariants of the buffers *)

Section Buffers.
Context {F : Type} `{Scalar F} {Op Kwargs : Type}.
Variable forward :
  Op → list ref → Kwargs → heap F Op → result (raw F * Context F Op * heap F Op).
Hypothesis forward_ok : forward_contract forward.
Implicit Types (h : heap F Op) (t : Tensor F Op) (a : ndarray F).

Lemma np_inplace_dt op L a y a' :
  np_inplace op L a y = Some a' → dt a' = dt a.
Proof.
  unfold np_inplace. destruct (broadcast_to (shape a) y); simpl; [| done].
  by intros [= <-].
Qed.

Lemma np_matmul_dt a b c :
  np_matmul a b = Some c → dt c = promote (dt a) (dt b).
Proof.
  unfold np_matmul. intros Hc.
  repeat (case_match; try discriminate);
    apply bind_Some in Hc as (batch & _ & Hc);
    apply bind_Some in Hc as (ea & _ & Hc);
    apply bind_Some in Hc as (eb & _ & Hc);
    by injection Hc as <-.
Qed.

(** *** Single precision *)

Lemma values_float32_extends h h' :
  values_float32 h → arrays h `prefix_of` arrays h' →
  ∀ r t, tensors h !! r = Some t →
         ∃ l a, data t = RArr l ∧ arrays h' !! l = Some a ∧ dt a = Float32.
Proof.
  intros Hv Hpre r t Hr. destruct (Hv r t Hr) as (l & a & Hd & Ha & Hdt).
  exists l, a. split; [done |]. split; [| done].
  by eapply prefix_lookup_Some.
Qed.

Lemma Tensor_init_float32 (o : raw F) rg ctx nm h r h' :
  values_float32 h → Tensor_init o rg ctx nm h = Ok (r, h') →
  values_float32 h'.
Proof.
  clear forward_ok forward.
  intros Hv Hrun. pose proof (Tensor_init_extends _ _ _ _ _ _ _ Hrun) as [_ Hpre].
  apply Tensor_init_inv in Hrun as (a & _ & -> & Hts & Harr).
  intros q t Hq. rewrite Hts in Hq.
  apply lookup_app_Some in Hq as [Hq | [_ Hq]].
  - by eapply values_float32_extends.
  - apply list_lookup_singleton_Some in Hq as [_ <-].
    exists (length (arrays h)), (astype_float32 a). simpl.
    split; [done |]. split; [| done]. rewrite Harr. by apply list_lookup_middle.
Qed.

Lemma coerce_float32 (ts : list (value F)) h rs h1 :
  values_float32 h → coerce ts h = Ok (rs, h1) → values_float32 h1.
Proof.
  clear forward_ok forward. revert h rs h1.
  induction ts as [| [p | o] ts IH]; intros h rs h1 Hv Hrun; simpl in Hrun.
  - by injection Hrun as <- <-.
  - apply bind_Ok in Hrun as ([rs' h'] & Hrest & [= <- <-]). eauto.
  - apply bind_Ok in Hrun as ([r hm] & Hinit & Hrun).
    apply bind_Ok in Hrun as ([rs' h'] & Hrest & [= <- <-]).
    eapply IH; [| done]. by eapply Tensor_init_float32.
Qed.

(** X15.  "The value of every Tensor is an array of float32" is an
    invariant of the class: the constructor, [comm] (whatever the dtype of
    the array that forward returns) and the in-place [+=], [-=], [*=],
    [**=], [/=] with any operand keep it, and so does [@=] between two
    Tensors when the product is an array (the product of two
    1-dimensional values is not: it is a numpy scalar). *)
Theorem X15_values_stay_float32 (h h' : heap F Op) :
  values_float32 h →
  (∃ o kw r, Tensor_new o kw h = Ok (r, h'))
  ∨ (∃ op ts kwargs r, comm forward op ts kwargs h = Ok (r, h'))
  ∨ (∃ op self x, inplace op self x h = Ok h')
  ∨ (∃ self x, __imatmul__ self (VTensor x) h = Ok h'
               ∧ array_valued h' self) →
  values_float32 h'.
Proof using forward_ok.
  intros Hv [(o & kw & r & Hrun) | [(op & ts & kwargs & r & Hrun)
            | [(op & self & x & Hrun) | (self & x & Hrun & Harray)]]].
  - by eapply Tensor_init_float32.
  - unfold comm in Hrun.
    apply bind_Ok in Hrun as ([operands h1] & Hco & Hrun).
    apply bind_Ok in Hrun as ([[d c] h2] & Hfw & Hinit).
    eapply Tensor_init_float32; [| done].
    destruct (forward_ok _ _ _ _ _ _ _ Hfw) as (Hts2 & Harr2 & _).
    intros q t Hq. rewrite Hts2 in Hq.
    eapply values_float32_extends; [| done | done]. by eapply coerce_float32.
  - unfold inplace in Hrun.
    apply bind_Ok in Hrun as (t & Ht%get_tensor_Ok & Hrun).
    apply bind_Ok in Hrun as (y & _ & Hrun).
    apply bind_Ok in Hrun as ([d h1] & Haug & [= <-]).
    destruct (Hv self t Ht) as (l & a & Hd & Ha & Hdt).
    apply augmented_inv in Haug
      as [(l0 & a0 & b & a' & Hd0 & Ha0 & _ & Hnp & -> & ->) | (Hnot & _)];
      [| by destruct (Hnot l)].
    assert (l0 = l) as -> by congruence.
    assert (a0 = a) as -> by congruence.
    apply np_inplace_dt in Hnp.
    intros q tq Hq. apply set_tensor_inv in Hq. simpl in Hq.
    assert (∃ lq aq, data tq = RArr lq ∧ arrays h !! lq = Some aq
                     ∧ dt aq = Float32) as (lq & aq & Hdq & Haq & Hdtq).
    { destruct Hq as [[-> ->] | [_ Hq]]; [| by apply (Hv q)].
      by exists l, a. }
    exists lq. simpl. destruct (decide (l = lq)) as [<- | Hne].
    + exists a'. split; [done |].
      rewrite list_lookup_insert_eq by (by eapply lookup_lt_Some).
      split; [done |]. congruence.
    + exists aq. by rewrite list_lookup_insert_ne.
  - unfold __imatmul__ in Hrun.
    apply bind_Ok in Hrun as (t & Ht%get_tensor_Ok & Hrun).
    apply bind_Ok in Hrun as (tx & Hx%get_tensor_Ok & Hrun).
    apply bind_Ok in Hrun as ([d h1] & Hmm & [= <-]).
    destruct (Hv self t Ht) as (l & a & Hd & Ha & Hdt).
    destruct (Hv x tx Hx) as (l' & b & Hd' & Hb & Hdt').
    apply matmul_inv in Hmm
      as (l0 & l0' & a0 & b0 & c & Hd0 & Hd0' & Ha0 & Hb0 & Hnp & Hret).
    assert (l0 = l) as -> by congruence.
    assert (l0' = l') as -> by congruence.
    assert (a0 = a) as -> by congruence. assert (b0 = b) as -> by congruence.
    apply np_matmul_dt in Hnp.
    destruct Harray as (ts & ls & Hts & Hls).
    apply set_tensor_inv in Hts as [[_ ->] | [Hne _]]; [| done].
    simpl in Hls. subst d.
    apply np_return_inv in Hret as [(v & _ & _ & [=] & _) | (_ & [= ->] & ->)].
    intros q tq Hq. apply set_tensor_inv in Hq. simpl in Hq.
    destruct Hq as [[-> ->] | [_ Hq]].
    + exists (length (arrays h)), c. simpl. split; [done |].
      split; [by apply list_lookup_middle |]. by rewrite Hnp, Hdt, Hdt'.
    + destruct (Hv q tq Hq) as (lq & aq & Hdq & Haq & Hdtq).
      exists lq, aq. simpl. split; [done |]. split; [| done].
      by apply lookup_app_l_Some.
Qed.

(** *** Ownership *)

(** Ownership only reads the Tensors and the number of arrays. *)
Lemma owned_mono h h' :
  owned h → tensors h' = tensors h → length (arrays h) ≤ length (arrays h') →
  owned h'.
Proof.
  clear forward_ok forward.
  intros [Hown Hsep] Hts Hlen. split.
  - intros r t Hr. rewrite Hts in Hr.
    destruct (Hown r t Hr) as (Hg & Hdata). split; [lia |].
    intros l Hl. destruct (Hdata l Hl). split; [lia | done].
  - intros r r' t t' Hne Hr Hr'. rewrite Hts in Hr, Hr'. by eapply Hsep.
Qed.

(** A new Tensor with two new arrays for itself. *)
Lemma owned_new_tensor h c rg nm (more : list (ndarray F)) n :
  owned h → length (arrays h) ≤ n → S n < length (arrays h ++ more) →
  owned (MkHeap (tensors h ++ [MkTensor (RArr n) (S n) c rg nm])
                (arrays h ++ more)).
Proof.
  clear forward_ok forward.
  intros [Hown Hsep] Hn Hlen. split; simpl.
  - intros r t Hr. apply lookup_app_Some in Hr as [Hr | [_ Hr]].
    + destruct (Hown r t Hr) as (Hg & Hdata). rewrite length_app in *.
      split; [lia |]. intros l Hl. destruct (Hdata l Hl). split; [lia | done].
    + apply list_lookup_singleton_Some in Hr as [_ <-]. simpl.
      split; [lia |]. intros l [= <-]. split; lia.
  - intros r r' t t' Hne Hr Hr'.
    apply lookup_app_Some in Hr as [Hr | [Hle Hr]];
      apply lookup_app_Some in Hr' as [Hr' | [Hle' Hr']].
    + by eapply Hsep.
    + apply list_lookup_singleton_Some in Hr' as [_ <-]. simpl.
      destruct (Hown r t Hr) as (Hg & Hdata). split; [lia |].
      intros l Hl. destruct (Hdata l Hl). split; [| lia].
      intros [= ->]. lia.
    + apply list_lookup_singleton_Some in Hr as [_ <-]. simpl.
      destruct (Hown r' t' Hr') as (Hg & Hdata). split; [lia |].
      intros l [= <-]. split; [| lia].
      intros Hd'. destruct (Hdata n Hd'). lia.
    + apply list_lookup_singleton_Some in Hr as [Hr _].
      apply list_lookup_singleton_Some in Hr' as [Hr' _]. lia.
Qed.

(** Binding [data] of a Tensor to a new object: a new array, or something
    that is no array. *)
Lemma owned_rebind h h1 self t (d : raw F) :
  owned h → tensors h !! self = Some t →
  tensors h1 = tensors h → length (arrays h) ≤ length (arrays h1) →
  (∀ l, d = RArr l → length (arrays h) ≤ l ∧ l < length (arrays h1)) →
  owned (set_tensor self (with_data d t) h1).
Proof.
  clear forward_ok forward.
  intros [Hown Hsep] Hself Hts Hlen Hnew. split; simpl.
  - intros r tr Hr. apply set_tensor_inv in Hr as [[-> ->] | [_ Hr]].
    + simpl. destruct (Hown self t Hself) as (Hg & _). split; [lia |].
      intros l Hl. destruct (Hnew l Hl). split; [done | lia].
    + rewrite Hts in Hr. destruct (Hown r tr Hr) as (Hg & Hdata).
      split; [lia |]. intros l Hl. destruct (Hdata l Hl). split; [lia | done].
  - intros r r' tr tr' Hne Hr Hr'.
    apply set_tensor_inv in Hr as [[-> ->] | [_ Hr]];
      apply set_tensor_inv in Hr' as [[-> ->] | [_ Hr']]; try done;
      rewrite ?Hts in *; simpl.
    + destruct (Hsep self r' t tr' Hne Hself Hr') as [Hgg _].
      split; [done |]. intros l Hl. destruct (Hnew l Hl).
      destruct (Hown r' tr' Hr') as (Hg' & Hdata'). split; [| lia].
      intros Hd'. destruct (Hdata' l Hd'). lia.
    + destruct (Hsep r self tr t Hne Hr Hself) as [Hgg Hdd].
      split; [done |]. intros l Hl. destruct (Hdd l Hl) as [_ Hgl].
      split; [| done]. intros Hd. destruct (Hnew l Hd).
      destruct (Hown r tr Hr) as (_ & Hdata). destruct (Hdata l Hl). lia.
    + by eapply Hsep.
Qed.

Lemma Tensor_init_owned (o : raw F) rg ctx nm h r h' :
  owned h → Tensor_init o rg ctx nm h = Ok (r, h') → owned h'.
Proof.
  clear forward_ok forward.
  intros Hown (a & _ & _ & Hts & Harr)%Tensor_init_inv.
  destruct h' as [ts' as']. simpl in Hts, Harr. subst ts' as'.
  apply owned_new_tensor; [done | lia |]. rewrite length_app. simpl. lia.
Qed.

Lemma coerce_owned (ts : list (value F)) h rs h1 :
  owned h → coerce ts h = Ok (rs, h1) → owned h1.
Proof.
  clear forward_ok forward. revert h rs h1.
  induction ts as [| [p | o] ts IH]; intros h rs h1 Hv Hrun; simpl in Hrun.
  - by injection Hrun as <- <-.
  - apply bind_Ok in Hrun as ([rs' h'] & Hrest & [= <- <-]). eauto.
  - apply bind_Ok in Hrun as ([r hm] & Hinit & Hrun).
    apply bind_Ok in Hrun as ([rs' h'] & Hrest & [= <- <-]).
    eapply IH; [| done]. by eapply Tensor_init_owned.
Qed.

(** A Tensor that owns its buffers is the sole owner of its value. *)
Lemma owned_sole_owner h (self : ref) : owned h → sole_owner h self.
Proof.
  clear forward_ok forward.
  intros [Hown Hsep] ts l Hts Hl r t Hr.
  destruct (decide (r = self)) as [-> | Hne].
  - assert (t = ts) as -> by congruence.
    destruct (Hown self ts Hts) as (_ & Hdata). destruct (Hdata l Hl).
    split; [done |]. done.
  - destruct (Hsep self r ts t (not_eq_sym Hne) Hts Hr) as (_ & Hdd).
    destruct (Hdd l Hl) as [Hd Hg]. split; [done |]. by intros _.
Qed.

(** X16.  "Every Tensor owns its value buffer and its grad buffer, and
    shares neither" is an invariant of the class: the constructor, [comm],
    the in-place [+=], [-=], [*=], [**=], [/=] with any operand and [@=]
    between two Tensors keep it.  It gives what the backward pass needs of
    the heap: every grad designates an array, and no grad is the value
    buffer of a Tensor. *)
Theorem X16_buffers_stay_owned (h h' : heap F Op) :
  owned h →
  (∃ o kw r, Tensor_new o kw h = Ok (r, h'))
  ∨ (∃ op ts kwargs r, comm forward op ts kwargs h = Ok (r, h'))
  ∨ (∃ op self x, inplace op self x h = Ok h')
  ∨ (∃ self x, __imatmul__ self (VTensor x) h = Ok h') →
  owned h'
  ∧ grads_allocated h'
  ∧ ∀ self t d, tensors h' !! self = Some t → data t = RArr d →
                no_grad_at h' d.
Proof using forward_ok.
  intros Hown Hstep.
  assert (Hown' : owned h').
  { destruct Hstep as [(o & kw & r & Hrun) | [(op & ts & kwargs & r & Hrun)
                      | [(op & self & x & Hrun) | (self & x & Hrun)]]].
    - by eapply Tensor_init_owned.
    - unfold comm in Hrun.
      apply bind_Ok in Hrun as ([operands h1] & Hco & Hrun).
      apply bind_Ok in Hrun as ([[d c] h2] & Hfw & Hinit).
      eapply Tensor_init_owned; [| done].
      destruct (forward_ok _ _ _ _ _ _ _ Hfw) as (Hts2 & Harr2 & _).
      eapply owned_mono; [by eapply coerce_owned | done |].
      by apply prefix_length.
    - unfold inplace in Hrun.
      apply bind_Ok in Hrun as (t & Ht%get_tensor_Ok & Hrun).
      apply bind_Ok in Hrun as (y & _ & Hrun).
      apply bind_Ok in Hrun as ([d h1] & Haug & [= <-]).
      apply augmented_inv in Haug
        as [(l & a & b & a' & Hd & Ha & _ & _ & -> & ->)
           | (_ & Hts & Hpre & Hnew)].
      + eapply owned_mono; [done | |].
        * simpl. apply list_insert_id. rewrite Ht. f_equal.
          destruct t. simpl in *. by subst.
        * simpl. by rewrite length_insert.
      + apply (owned_rebind h); [done | done | done | by apply prefix_length |].
        intros l Hl. destruct (Hnew l Hl). lia.
    - unfold __imatmul__ in Hrun.
      apply bind_Ok in Hrun as (t & Ht%get_tensor_Ok & Hrun).
      apply bind_Ok in Hrun as (tx & Hx%get_tensor_Ok & Hrun).
      apply bind_Ok in Hrun as ([d h1] & Hmm & [= <-]).
      apply matmul_inv in Hmm
        as (l & l' & a & b & c & _ & _ & _ & _ & _ & Hret).
      destruct (np_return_frame _ _ _ _ Hret) as (Hts & Hpre & Hnew).
      apply (owned_rebind h); [done | done | done | by apply prefix_length |].
      intros l0 Hl0. destruct (Hnew l0 Hl0) as [-> ?%lookup_lt_Some]. lia. }
  split; [done |]. destruct Hown' as [Hown' Hsep']. split.
  - intros r t Hr. by destruct (Hown' r t Hr) as (Hg & _).
  - intros self t d Hself Hd r tr Hr Heq.
    destruct (decide (self = r)) as [-> | Hsr].
    + assert (tr = t) as -> by congruence.
      destruct (Hown' r t Hr) as (_ & Hdata). destruct (Hdata d Hd). done.
    + destruct (Hsep' self r t tr Hsr Hself Hr) as (_ & Hdd).
      destruct (Hdd d Hd). done.
Qed.
End Buffers.

(** ** The mathematical methods *)

Section Methods.
Context {F : Type} `{Scalar F} {Kwargs : Type}.
Variable forward :
  op_class → list ref → Kwargs → heap F op_class →
  result (raw F * Context F op_class * heap F op_class).
Variable no_kw : Kwargs.
Hypothesis forward_ok : forward_contract forward.

(** X17.  [-a] is [0.0 - a]: each negation makes two Tensors, a leaf that
    holds 0.0 and then the result, whose creator is the one that the
    forward of Sub returns and whose parents are among that leaf and [a].
    Nothing that existed changes. *)
Theorem X17_neg_subtracts_from_a_zero_leaf (self : ref)
    (h h' : heap F op_class) (r : ref) :
  TensorOps.__neg__ forward no_kw self h = Ok (r, h') →
  let zero := length (tensors h) in
  extends h h' ∧ r = S zero ∧ length (tensors h') = S (S zero)
  ∧ zero_leaf h' zero false (scalar_array (of_Z 0))
  ∧ ∃ t d c hz h2,
      forward mops_Sub [zero; self] no_kw hz = Ok (d, c, h2)
      ∧ tensors h' !! r = Some t ∧ _ctx t = Bound (Some c)
      ∧ requires_grad t = true
      ∧ ∀ p, VTensor p ∈ parents c → p = zero ∨ p = self.
Proof using forward_ok.
  intros Hrun zero. unfold TensorOps.__neg__, TensorOps.__rsub__, comm in Hrun.
  apply bind_Ok in Hrun as ([operands h1] & Hco & Hrun).
  apply bind_Ok in Hrun as ([[d c] h2] & Hfw & Hinit).
  cbn [coerce] in Hco.
  destruct (Tensor_init_leaf (Op := op_class) (RNum (of_Z 0)) false "" h
              (scalar_array (of_Z 0)) eq_refl) as (hz & Hz & Hleaf).
  rewrite Hz in Hco. simpl in Hco. injection Hco as <- <-.
  pose proof (Tensor_init_extends _ _ _ _ _ _ _ Hz) as Hext1.
  destruct (Tensor_init_inv _ _ _ _ _ _ _ Hz) as (a0 & _ & _ & Htz & _).
  destruct (forward_ok _ _ _ _ _ _ _ Hfw) as (Hts2 & Harr2 & Hpar).
  pose proof (Tensor_init_extends _ _ _ _ _ _ _ Hinit) as Hext3.
  destruct (Tensor_init_inv _ _ _ _ _ _ _ Hinit) as (a & _ & -> & Hts & _).
  assert (Hext2 : extends hz h2) by (split; [by rewrite Hts2 | done]).
  assert (Hlen : length (tensors h2) = S zero).
  { rewrite Hts2, Htz, length_app. simpl. unfold zero. lia. }
  split; [by eapply extends_trans; [| eapply extends_trans] |].
  split; [done |]. split; [rewrite Hts, length_app; simpl; lia |].
  split.
  { eapply zero_leaf_extends; [| done]. by eapply extends_trans. }
  eexists _, d, c, hz, h2. split; [done |].
  split; [rewrite Hts; by apply list_lookup_middle |]. simpl.
  split; [done |]. split; [done |].
  intros p Hp. apply Hpar in Hp.
  apply elem_of_cons in Hp as [-> | Hp]; [by left |].
  apply elem_of_cons in Hp as [-> | Hp]; [by right |].
  by apply elem_of_nil in Hp.
Qed.
End Methods.

(** ** The further properties on concrete heaps *)

Lemma sum_forward_contract {F : Type} `{Scalar F} :
  forward_contract (@sum_forward F _).
Proof.
  intros op rs kw h d c h' Hrun. unfold sum_forward, new_array in Hrun.
  destruct rs as [| r rs]; [done |].
  apply bind_Ok in Hrun as (t & _ & Hrun).
  apply bind_Ok in Hrun as (a & _ & Hrun).
  apply bind_Ok in Hrun as (out & _ & [= <- <- <-]).
  cbn [tensors arrays parents].
  split; [done |]. split; [by apply prefix_app_r |].
  intros p Hp. change (VTensor p ∈ VTensor (F := F) <$> r :: rs) in Hp.
  by apply list_elem_of_fmap in Hp as (q & [= ->] & Hq).
Qed.

Lemma sub_forward_contract : forward_contract sub_forward.
Proof.
  intros op rs kw h d c h' Hrun. unfold sub_forward, new_array in Hrun.
  destruct op; try done. destruct rs as [| x [| y [| z rs]]]; try done.
  apply bind_Ok in Hrun as (tx & _ & Hrun).
  apply bind_Ok in Hrun as (ty & _ & Hrun).
  apply bind_Ok in Hrun as (a & _ & Hrun).
  apply bind_Ok in Hrun as (b & _ & Hrun).
  apply bind_Ok in Hrun as (out & _ & [= <- <- <-]). simpl.
  split; [done |]. split; [by apply prefix_app_r |].
  intros p Hp. apply elem_of_cons in Hp as [[= ->] | Hp]; [by left |].
  apply elem_of_cons in Hp as [[= ->] | Hp]; [by right; left |].
  by apply elem_of_nil in Hp.
Qed.

Lemma chain_heap_leafy : leafy chain_heap.
Proof.
  intros r t c Hr Hc. vm_compute in Hr. each_tensor r t Hr; simpl in Hc;
    try discriminate Hc; injection Hc as <-.
  - exists 0. eexists. split; [apply list_elem_of_here |].
    split; [vm_compute; reflexivity | reflexivity].
  - exists 3. eexists.
    split; [apply list_elem_of_further, list_elem_of_here |].
    split; [vm_compute; reflexivity | reflexivity].
Qed.

Lemma shared_heap_acyclic : acyclic shared_heap.
Proof.
  intros r t Hr. vm_compute in Hr. each_tensor r t Hr;
    unfold parents_below; simpl; repeat constructor.
Qed.

Lemma cycle_heap_refs_valid : refs_valid cycle_heap.
Proof.
  intros r t c p Hr Hc Hp. each_tensor r t Hr; simpl in Hc;
    injection Hc as <-; simpl in Hp;
    apply list_elem_of_singleton in Hp; injection Hp as ->; simpl; lia.
Qed.

Lemma chain_heap_float32 : values_float32 chain_heap.
Proof.
  intros r t Hr. vm_compute in Hr. each_tensor r t Hr;
    eexists _, _; (split; [reflexivity |]);
    (split; [vm_compute; reflexivity | reflexivity]).
Qed.

Lemma chain_heap_owned : owned chain_heap.
Proof.
  split.
  - intros r t Hr. vm_compute in Hr. each_tensor r t Hr;
      (split; [vm_compute; lia |]); intros l [= <-];
      (split; [vm_compute; lia | simpl; lia]).
  - intros r r' t t' Hne Hr Hr'.
    vm_compute in Hr, Hr'.
    each_tensor r t Hr; each_tensor r' t' Hr'; try done;
      (split; [simpl; lia |]); intros l [= <-]; simpl;
      (split; [congruence | lia]).
Qed.

Lemma X1_traversal_ignores_updates_witness :
  ∃ h', apply_inplace (Arith Mul) 2 (VRaw (RNum 3%Z)) chain_heap = Ok h'
        ∧ ∀ fuel r st, build_topo fuel h' r st = build_topo fuel chain_heap r st.
Proof.
  eexists. split; [vm_compute; reflexivity |].
  apply (X1_traversal_ignores_updates chain_heap).
  left. exists (Arith Mul), 2, (VRaw (RNum 3%Z)). vm_compute. reflexivity.
Defined.

Lemma X2_calls_are_creators_root_first_witness :
  (∀ r, r ∈ [4; 2] → has_creator chain_heap r)
  ∧ (has_creator chain_heap 4 → ∃ rest, [4; 2] = 4 :: rest)
  ∧ (¬ has_creator chain_heap 4 → [4; 2] = []).
Proof.
  apply (X2_calls_are_creators_root_first sum_backward 5 4 false
           chain_heap chain_done [4; 2]).
  vm_compute. reflexivity.
Defined.

Lemma X3_unimplemented_backward_aborts_witness :
  backward (@Context_backward Z sum_op) 5 4 false chain_heap
  = ([4], Raise NotImplementedError).
Proof.
  eapply (X3_unimplemented_backward_aborts 5 4 false chain_heap).
  - vm_compute. reflexivity.
  - reflexivity.
  - reflexivity.
  - vm_compute. reflexivity.
  - vm_compute. reflexivity.
Defined.

Lemma X4_debug_keeps_the_graph_witness :
  (∀ fuel' r st,
     build_topo fuel' chain_debug r st = build_topo fuel' chain_heap r st)
  ∧ ∀ debug calls2 h2,
      backward sum_backward 5 4 debug chain_debug = (calls2, Ok h2) →
      calls2 = [4; 2].
Proof.
  apply (X4_debug_keeps_the_graph sum_backward sum_backward_contract 5 4
           chain_heap chain_debug [4; 2]).
  vm_compute. reflexivity.
Defined.

Lemma X5_plain_pass_has_no_repetition_witness : NoDup [4; 2].
Proof.
  apply (X5_plain_pass_has_no_repetition sum_backward sum_backward_contract
           5 4 chain_heap chain_done [4; 2]).
  vm_compute. reflexivity.
Defined.

Lemma X6_pass_spares_the_rest_witness :
  ∃ t', tensors chain_done !! 4 = Some t'
        ∧ data t' = RArr 10 ∧ requires_grad t' = true
        ∧ (false = true ∨ 4 ∉ [4; 2] →
           _ctx t' = Bound (Some (MkContext Sum [VTensor 2; VTensor 3]))).
Proof.
  apply (X6_pass_spares_the_rest sum_backward sum_backward_contract 5 4 false
           chain_heap chain_done [4; 2] 4
           (MkTensor (RArr 10) 11
              (Bound (Some (MkContext Sum [VTensor 2; VTensor 3]))) true "")).
  - vm_compute. reflexivity.
  - vm_compute. reflexivity.
Defined.

(** [z.backward()] on the sum that broadcasts: the only call fails. *)
Lemma X7_failure_is_the_operators_witness :
  backward sum_backward 3 2 false broadcast_heap = ([2], Raise ValueError)
  ∧ ((∃ h' : heap Z sum_op, Raise ValueError = Ok h' ∧ [2] = reverse [2])
     ∨ (∃ n t0 c tn h1,
          [2] `prefix_of` reverse [2] ∧ last [2] = Some n
          ∧ tensors broadcast_heap !! n = Some t0 ∧ _ctx t0 = Bound (Some c)
          ∧ tensors h1 !! n = Some tn ∧ _ctx tn = Bound (Some c)
          ∧ sum_backward c (grad tn) h1 = Raise ValueError
          ∧ ∀ h' : heap Z sum_op, Raise ValueError ≠ Ok h')).
Proof.
  assert (Hrun : backward sum_backward 3 2 false broadcast_heap
                 = ([2], Raise ValueError)) by (vm_compute; reflexivity).
  split; [exact Hrun |].
  eapply (X7_failure_is_the_operators sum_backward sum_backward_contract
            3 2 false broadcast_heap).
  - vm_compute. reflexivity.
  - vm_compute. reflexivity.
  - vm_compute. reflexivity.
  - intros _. apply NoDup_singleton.
  - exact Hrun.
Defined.

Lemma X8_leaf_operands_no_repetition_witness : NoDup [2; 4].
Proof.
  eapply (X8_leaf_operands_no_repetition chain_heap chain_heap_acyclic 5 4 _
            [2; 4] chain_heap_leafy).
  vm_compute. reflexivity.
Defined.

Lemma X9_parents_listed_first_witness :
  parents_first shared_heap [1; 2; 3; 2; 4].
Proof.
  eapply (X9_parents_listed_first shared_heap shared_heap_acyclic 5 4 _
            [1; 2; 3; 2; 4]).
  vm_compute. reflexivity.
Defined.

Lemma X10_sound_with_leaf_operands_witness :
  NoDup [4; 2] ∧ topologically_sound chain_heap [4; 2].
Proof.
  apply (X10_sound_with_leaf_operands chain_heap chain_heap_acyclic
           sum_backward 5 4 false [4; 2] (Ok chain_done) chain_heap_leafy).
  vm_compute. reflexivity.
Defined.

Lemma X11_traversal_terminates_witness :
  returns (build_topo 9 cycle_heap 0 (∅, []))
  ∧ build_topo 9 cycle_heap 0 (∅, [])
    = build_topo (2 * length (tensors cycle_heap) + 2) cycle_heap 0 (∅, []).
Proof.
  apply (X11_traversal_terminates cycle_heap 0 9 cycle_heap_refs_valid).
  - simpl. lia.
  - simpl. lia.
Defined.

Lemma X12_comm_only_adds_witness :
  ∃ r h', comm sum_forward Sum [VTensor 4; VRaw (RNum 1%Z)] () chain_heap
          = Ok (r, h')
          ∧ extends chain_heap h'
          ∧ length (tensors h') = length (tensors chain_heap) + 1 + 1
          ∧ r = length (tensors chain_heap) + 1
          ∧ ∀ q t, length (tensors chain_heap) ≤ q → q < r →
                   tensors h' !! q = Some t → _ctx t = Bound None.
Proof.
  eexists _, _. split; [vm_compute; reflexivity |].
  apply (X12_comm_only_adds sum_forward sum_forward_contract Sum
           [VTensor 4; VRaw (RNum 1%Z)] () chain_heap).
  - repeat constructor.
  - vm_compute. reflexivity.
Defined.

Lemma X13_comm_keeps_acyclic_witness :
  ∃ r h', comm sum_forward Sum [VTensor 4; VRaw (RNum 1%Z)] () chain_heap
          = Ok (r, h')
          ∧ acyclic h'.
Proof.
  eexists _, _. split; [vm_compute; reflexivity |].
  eapply (X13_comm_keeps_acyclic sum_forward sum_forward_contract Sum
            [VTensor 4; VRaw (RNum 1%Z)] () chain_heap _ _ chain_heap_acyclic).
  - repeat constructor.
  - vm_compute. reflexivity.
Defined.


Lemma X15_values_stay_float32_witness :
  ∃ h', inplace Add 0 (VTensor 1) chain_heap = Ok h' ∧ values_float32 h'.
Proof.
  eexists. split; [vm_compute; reflexivity |].
  apply (X15_values_stay_float32 sum_forward sum_forward_contract chain_heap _
           chain_heap_float32).
  right. right. left. exists Add, 0, (VTensor 1). vm_compute. reflexivity.
Defined.

Lemma X16_buffers_stay_owned_witness :
  ∃ r h', comm sum_forward Sum [VTensor 4; VRaw (RNum 1%Z)] () chain_heap
          = Ok (r, h')
          ∧ owned h' ∧ grads_allocated h'
          ∧ ∀ self t d, tensors h' !! self = Some t → data t = RArr d →
                        no_grad_at h' d.
Proof.
  eexists _, _. split; [vm_compute; reflexivity |].
  apply (X16_buffers_stay_owned sum_forward sum_forward_contract chain_heap _
           chain_heap_owned).
  right. left. exists Sum, [VTensor 4; VRaw (RNum 1%Z)], (), 6.
  vm_compute. reflexivity.
Defined.

Lemma X17_neg_subtracts_from_a_zero_leaf_witness :
  ∃ r h', TensorOps.__neg__ sub_forward () 0 one_leaf = Ok (r, h')
          ∧ extends one_leaf h' ∧ r = 2 ∧ length (tensors h') = 3
          ∧ zero_leaf h' 1 false (scalar_array 0%Z)
          ∧ ∃ t d c hz h2,
              sub_forward mops_Sub [1; 0] () hz = Ok (d, c, h2)
              ∧ tensors h' !! r = Some t ∧ _ctx t = Bound (Some c)
              ∧ requires_grad t = true
              ∧ ∀ p, VTensor p ∈ parents c → p = 1 ∨ p = 0.
Proof.
  eexists _, _. split; [vm_compute; reflexivity |].
  refine (X17_neg_subtracts_from_a_zero_leaf sub_forward () sub_forward_contract
            0 one_leaf _ _ _).
  vm_compute. reflexivity.
Defined.
